(** * Hertz contact example (examples/hertz.py): a shallow embedding

    The script drives the GetFEM finite-element library: it splits an
    imported mesh into a wheel and a foundation, tags boundary regions,
    declares finite-element spaces, fills a model with bricks and weak-form
    terms, solves it and exports the result.  The development follows the
    script section by section; the plots are left out.

    Numbers.  Mesh coordinates are machine numbers, hence rationals, and the
    script only translates them and compares them with [0.0]: they are
    modelled in [Q], so that the mesh splitting computes.  Material
    coefficients, normals, angles and the values of the weak-form terms are
    modelled in [R] (exact arithmetic, no rounding). *)

From Stdlib Require Import List Ascii String ZArith QArith Bool Arith Lia.
From Stdlib Require Import Reals Lra Ratan Machin.
From ExtLib Require Import Structures.Monad Structures.MonadState Data.Monads.StateMonad.
Import ListNotations.
Import MonadNotation.

Set Implicit Arguments.

(** ** Meshes: points, convexes, regions *)

Module Meshes.

(** A face is named by the id of its convex and its local face number. *)
Definition Face : Type := (nat * nat)%type.

(** [pts]: column [i] of [mesh.pts()] is the point of id [i], as the pair
    of its two rows.  [cvs]: each convex, with its id and the ids of its
    vertices.  [regions]: the face lists recorded by [set_region]. *)
Record Mesh : Type := mk_Mesh {
  pts : list (Q * Q);
  cvs : list (nat * list nat);
  regions : list (Z * list Face)
}.

Definition nbpts (m : Mesh) : nat := List.length (pts m).

(** [mesh.translate([dx, dy])] *)
Definition translate (d : Q * Q) (m : Mesh) : Mesh :=
  mk_Mesh (map (fun p => (fst p + fst d, snd p + snd d)%Q) (pts m)) (cvs m) (regions m).

(** [P[1, :]]: the second row of the array of points. *)
Definition row1 (P : list (Q * Q)) : list Q := map snd P.

(** [np.compress(c, l)]: the entries of [l] whose flag in [c] is set. *)
Fixpoint compress (A : Type) (c : list bool) (l : list A) : list A :=
  match c, l with
  | b :: c', x :: l' => if b then x :: compress c' l' else compress c' l'
  | _, _ => []
  end.

Definition mem (n : nat) (l : list nat) : bool := existsb (Nat.eqb n) l.

(** Modelled from the spec: the library call [mesh.cvid_from_pid(PIDs)],
    whose body is not part of the repository.  Called as the script calls
    it, without the sharing option, it yields the ids of the convexes all of
    whose vertices are among the given points. *)
Definition cvid_from_pid (m : Mesh) (pids : list nat) : list nat :=
  map fst (filter (fun cv => forallb (fun p => mem p pids) (snd cv)) (cvs m)).

(** Modelled from the spec: the library call [mesh.del_convex(CVIDs)], whose
    body is not part of the repository.  It removes the listed convexes and
    leaves the points in place. *)
Definition del_convex (cvids : list nat) (m : Mesh) : Mesh :=
  mk_Mesh (pts m) (filter (fun cv => negb (mem (fst cv) cvids)) (cvs m)) (regions m).

(** [mesh.set_region(id, faces)]: the region [id] now holds [faces]. *)
Definition set_region (id : Z) (faces : list Face) (m : Mesh) : Mesh :=
  mk_Mesh (pts m) (cvs m) ((id, faces) :: regions m).

Fixpoint lookup_region (id : Z) (l : list (Z * list Face)) : list Face :=
  match l with
  | [] => []
  | (i, fs) :: l' => if Z.eqb i id then fs else lookup_region id l'
  end.

Definition region (m : Mesh) (id : Z) : list Face := lookup_region id (regions m).

(** No face belongs to two of the listed regions. *)
Definition regions_disjoint (m : Mesh) (ids : list Z) : Prop :=
  forall a b f, In a ids -> In b ids -> a <> b ->
                ~ (In f (region m a) /\ In f (region m b)).

End Meshes.

(** ** Splitting the imported mesh (script lines 50-73) *)

Module Split.
Import Meshes.

Section WithMesh.

(** The content of [hertz.msh] as imported by [gf.Mesh("import", ...)]. *)
Variable imported : Meshes.Mesh.

Definition mesh : Meshes.Mesh := translate (0, 5)%Q imported.
Definition P : list (Q * Q) := pts mesh.

Definition c1 : list bool := map (fun y => Qle_bool 0 y) (row1 P).
Definition pid1 : list nat := compress c1 (seq 0 (nbpts mesh)).
Definition cvid1 : list nat := cvid_from_pid mesh pid1.

Definition c2 : list bool := map (fun y => Qle_bool y 0) (row1 P).
Definition pid2 : list nat := compress c2 (seq 0 (nbpts mesh)).
Definition cvid2 : list nat := cvid_from_pid mesh pid2.

Definition mesh1 : Meshes.Mesh := del_convex cvid2 mesh.
Definition mesh2 : Meshes.Mesh := del_convex cvid1 mesh.

End WithMesh.

(** Every vertex of the convex is a point of the mesh that satisfies [C]. *)
Definition all_vertices (C : Q * Q -> Prop) (m : Meshes.Mesh) (cv : nat * list nat) : Prop :=
  forall p, In p (snd cv) -> exists xy, nth_error (pts m) p = Some xy /\ C xy.

(** Some vertex of the convex is a point of the mesh that satisfies [C]. *)
Definition some_vertex (C : Q * Q -> Prop) (m : Meshes.Mesh) (cv : nat * list nat) : Prop :=
  exists p xy, In p (snd cv) /\ nth_error (pts m) p = Some xy /\ C xy.

End Split.

(** ** Plane vectors and the angle between them *)

Module Plane.

Local Open Scope R_scope.

Definition vec : Type := (R * R)%type.

Definition dot (a b : vec) : R := fst a * fst b + snd a * snd b.
Definition norm (a : vec) : R := sqrt (dot a a).
Definition vadd (a b : vec) : vec := (fst a + fst b, snd a + snd b).
Definition vsub (a b : vec) : vec := (fst a - fst b, snd a - snd b).
Definition vopp (a : vec) : vec := (- fst a, - snd a).
Definition scale (c : R) (a : vec) : vec := (c * fst a, c * snd a).

(** The angle, in [0, PI], between two vectors. *)
Definition angle (a b : vec) : R := acos (dot a b / (norm a * norm b)).

End Plane.

(** ** Boundary selection by direction (script lines 100-111) *)

Module Boundary.
Import Meshes Plane.

Local Open Scope R_scope.

Section Classifier.

(** The boundary faces of a mesh and their unit outward normals, as the
    library computes them from the geometry. *)
Variable outer_faces : list Face.
Variable normal : Face -> vec.

Definition within (v : vec) (tol : R) (f : Face) : bool :=
  if Rle_dec (angle (normal f) v) tol then true else false.

(** Modelled from the spec: the library call
    [mesh.outer_faces_with_direction(v, angle)], whose body is not part of
    the repository.  The script documents it (line 129) as selecting all the
    faces having a unit outward normal having an angle less or equal to
    [angle] with the vector [v]. *)
Definition outer_faces_with_direction (v : vec) (tol : R) : list Face :=
  filter (within v tol) outer_faces.

End Classifier.

End Boundary.

(** ** The weak form language of the terms (script lines 231, 256, 257) *)

Module Gwfl.
Import Plane.

(** *** Syntax: the fragment the script writes *)

Inductive expr : Type :=
| Num (n : Z)                                (* 0, 1 *)
| Name (s : string)                          (* u1, lambda1, gamma0 *)
| TestOf (s : string)                        (* Test_u1 *)
| Point                                      (* X *)
| ElementSize                                (* element_size *)
| Component (e : expr) (i : Z)               (* X(1) *)
| Vector (a b : expr)                        (* [a;b] *)
| NegPart (e : expr)                         (* neg_part(e) *)
| Interpolate (e : expr) (transf : string)   (* Interpolate(e,Proj1) *)
| Neg (e : expr)
| Add (a b : expr)
| Sub (a b : expr)
| Mul (a b : expr)
| Div (a b : expr)
| Dot (a b : expr).                          (* a.b *)

(** *** Reading an expression from its string *)

Inductive token : Type :=
| T_ident (s : string)
| T_num (n : Z)
| T_sym (c : Ascii.ascii).

Definition code (c : Ascii.ascii) : nat := Ascii.nat_of_ascii c.

Definition is_digit (c : Ascii.ascii) : bool :=
  (Nat.leb 48 (code c) && Nat.leb (code c) 57)%bool.

Definition is_letter (c : Ascii.ascii) : bool :=
  ((Nat.leb 65 (code c) && Nat.leb (code c) 90)
   || (Nat.leb 97 (code c) && Nat.leb (code c) 122)
   || Nat.eqb (code c) 95)%bool.

Definition is_space (c : Ascii.ascii) : bool := Nat.eqb (code c) 32.

(** ( ) [ ] ; , + - * / and the dot *)
Definition is_symbol (c : Ascii.ascii) : bool :=
  existsb (Nat.eqb (code c)) [40; 41; 91; 93; 59; 44; 43; 45; 42; 47; 46]%nat.

Inductive pending : Type :=
| NoToken
| InIdent (s : string)
| InNum (n : Z).

Definition flush (p : pending) (acc : list token) : list token :=
  match p with
  | NoToken => acc
  | InIdent s => T_ident s :: acc
  | InNum n => T_num n :: acc
  end.

Definition snoc (s : string) (c : Ascii.ascii) : string :=
  (s ++ String c EmptyString)%string.

Fixpoint lex (s : string) (p : pending) (acc : list token) : option (list token) :=
  match s with
  | EmptyString => Some (rev (flush p acc))
  | String c s' =>
      if is_letter c then
        match p with
        | NoToken => lex s' (InIdent (snoc EmptyString c)) acc
        | InIdent i => lex s' (InIdent (snoc i c)) acc
        | InNum _ => None
        end
      else if is_digit c then
        let d := Z.of_nat (code c - 48) in
        match p with
        | NoToken => lex s' (InNum d) acc
        | InIdent i => lex s' (InIdent (snoc i c)) acc
        | InNum n => lex s' (InNum (10 * n + d)%Z) acc
        end
      else if is_space c then lex s' NoToken (flush p acc)
      else if is_symbol c then lex s' NoToken (T_sym c :: flush p acc)
      else None
  end.

Definition sym (c : Ascii.ascii) (t : token) : bool :=
  match t with
  | T_sym d => Ascii.eqb c d
  | _ => false
  end.

Definition ident (s : string) : expr :=
  if String.eqb s "X" then Point
  else if String.eqb s "element_size" then ElementSize
  else if String.prefix "Test_" s
       then TestOf (String.substring 5 (String.length s - 5) s)
       else Name s.

(** Sums of products of signed atoms; [+ -] bind less than [* / .], which
    bind less than the unary minus.  All operators associate to the left.
    The first argument bounds the depth of the calls. *)
Fixpoint read_sum (n : nat) (ts : list token) {struct n} : option (expr * list token) :=
  match n with
  | O => None
  | S n' =>
      match read_product n' ts with
      | Some (e, r) => more_sum n' e r
      | None => None
      end
  end
with more_sum (n : nat) (e : expr) (ts : list token) {struct n} : option (expr * list token) :=
  match n with
  | O => None
  | S n' =>
      match ts with
      | T_sym "+"%char :: r =>
          match read_product n' r with
          | Some (e', r') => more_sum n' (Add e e') r'
          | None => None
          end
      | T_sym "-"%char :: r =>
          match read_product n' r with
          | Some (e', r') => more_sum n' (Sub e e') r'
          | None => None
          end
      | _ => Some (e, ts)
      end
  end
with read_product (n : nat) (ts : list token) {struct n} : option (expr * list token) :=
  match n with
  | O => None
  | S n' =>
      match read_signed n' ts with
      | Some (e, r) => more_product n' e r
      | None => None
      end
  end
with more_product (n : nat) (e : expr) (ts : list token) {struct n} : option (expr * list token) :=
  match n with
  | O => None
  | S n' =>
      match ts with
      | T_sym "*"%char :: r =>
          match read_signed n' r with
          | Some (e', r') => more_product n' (Mul e e') r'
          | None => None
          end
      | T_sym "/"%char :: r =>
          match read_signed n' r with
          | Some (e', r') => more_product n' (Div e e') r'
          | None => None
          end
      | T_sym "."%char :: r =>
          match read_signed n' r with
          | Some (e', r') => more_product n' (Dot e e') r'
          | None => None
          end
      | _ => Some (e, ts)
      end
  end
with read_signed (n : nat) (ts : list token) {struct n} : option (expr * list token) :=
  match n with
  | O => None
  | S n' =>
      match ts with
      | T_sym "-"%char :: r =>
          match read_signed n' r with
          | Some (e, r') => Some (Neg e, r')
          | None => None
          end
      | _ => read_atom n' ts
      end
  end
with read_atom (n : nat) (ts : list token) {struct n} : option (expr * list token) :=
  match n with
  | O => None
  | S n' =>
      match ts with
      | T_num k :: r => Some (Num k, r)
      | T_sym "("%char :: r =>
          match read_sum n' r with
          | Some (e, T_sym ")"%char :: r') => Some (e, r')
          | _ => None
          end
      | T_sym "["%char :: r =>
          match read_sum n' r with
          | Some (a, T_sym ";"%char :: r') =>
              match read_sum n' r' with
              | Some (b, T_sym "]"%char :: r'') => Some (Vector a b, r'')
              | _ => None
              end
          | _ => None
          end
      | T_ident "neg_part" :: T_sym "("%char :: r =>
          match read_sum n' r with
          | Some (e, T_sym ")"%char :: r') => Some (NegPart e, r')
          | _ => None
          end
      | T_ident "Interpolate" :: T_sym "("%char :: r =>
          match read_sum n' r with
          | Some (e, T_sym ","%char :: T_ident t :: T_sym ")"%char :: r') =>
              Some (Interpolate e t, r')
          | _ => None
          end
      | T_ident s :: T_sym "("%char :: T_num k :: T_sym ")"%char :: r =>
          Some (Component (ident s) k, r)
      | T_ident s :: r => Some (ident s, r)
      | _ => None
      end
  end.

Definition read (s : string) : option expr :=
  match lex s NoToken [] with
  | Some ts =>
      match read_sum (8 * List.length ts + 8) ts with
      | Some (e, []) => Some e
      | _ => None
      end
  | None => None
  end.

End Gwfl.

(** ** Values of weak-form expressions at an integration point *)

Module Assembly.
Import Plane Gwfl.

Local Open Scope R_scope.

Inductive value : Type :=
| Scalar (r : R)
| Vec (v : vec).

(** The negative part, from the reals to the non-negative reals (script
    line 250). *)
Definition neg_part (t : R) : R := Rmax (- t) 0.

(** What an expression can refer to at a point: the fields of the model
    variables and of their test functions, the data of the model, the size
    of the current element and the interpolate transformations. *)
Record workspace : Type := mk_workspace {
  variable : string -> option (vec -> value);
  test_function : string -> option (vec -> value);
  constant : string -> option value;
  element_size : vec -> R;
  transformation : string -> option (vec -> option vec)
}.

Definition lift1 (f : R -> R) (a : option value) : option value :=
  match a with
  | Some (Scalar x) => Some (Scalar (f x))
  | _ => None
  end.

Definition add (a b : option value) : option value :=
  match a, b with
  | Some (Scalar x), Some (Scalar y) => Some (Scalar (x + y))
  | Some (Vec x), Some (Vec y) => Some (Vec (vadd x y))
  | _, _ => None
  end.

Definition sub (a b : option value) : option value :=
  match a, b with
  | Some (Scalar x), Some (Scalar y) => Some (Scalar (x - y))
  | Some (Vec x), Some (Vec y) => Some (Vec (vsub x y))
  | _, _ => None
  end.

Definition mul (a b : option value) : option value :=
  match a, b with
  | Some (Scalar x), Some (Scalar y) => Some (Scalar (x * y))
  | Some (Scalar x), Some (Vec y) => Some (Vec (scale x y))
  | Some (Vec x), Some (Scalar y) => Some (Vec (scale y x))
  | _, _ => None
  end.

Definition div (a b : option value) : option value :=
  match a, b with
  | Some (Scalar x), Some (Scalar y) => Some (Scalar (x / y))
  | Some (Vec x), Some (Scalar y) => Some (Vec (scale (/ y) x))
  | _, _ => None
  end.

Definition opp (a : option value) : option value :=
  match a with
  | Some (Scalar x) => Some (Scalar (- x))
  | Some (Vec x) => Some (Vec (vopp x))
  | None => None
  end.

Definition dotv (a b : option value) : option value :=
  match a, b with
  | Some (Vec x), Some (Vec y) => Some (Scalar (dot x y))
  | _, _ => None
  end.

Definition component (a : option value) (i : Z) : option value :=
  match a with
  | Some (Vec x) =>
      if Z.eqb i 1 then Some (Scalar (fst x))
      else if Z.eqb i 2 then Some (Scalar (snd x))
      else None
  | _ => None
  end.

Definition pair (a b : option value) : option value :=
  match a, b with
  | Some (Scalar x), Some (Scalar y) => Some (Vec (x, y))
  | _, _ => None
  end.

Definition at_point (f : option (vec -> value)) (X : vec) : option value :=
  match f with
  | Some g => Some (g X)
  | None => None
  end.

(** [Interpolate(e,T)] is [e] taken at the image of the point by [T]. *)
Fixpoint eval (w : workspace) (e : expr) (X : vec) : option value :=
  match e with
  | Num n => Some (Scalar (IZR n))
  | Name s =>
      match variable w s with
      | Some f => Some (f X)
      | None => constant w s
      end
  | TestOf s => at_point (test_function w s) X
  | Point => Some (Vec X)
  | ElementSize => Some (Scalar (element_size w X))
  | Component a i => component (eval w a X) i
  | Vector a b => pair (eval w a X) (eval w b X)
  | NegPart a => lift1 neg_part (eval w a X)
  | Interpolate a t =>
      match transformation w t with
      | Some T =>
          match T X with
          | Some Y => eval w a Y
          | None => None
          end
      | None => None
      end
  | Neg a => opp (eval w a X)
  | Add a b => add (eval w a X) (eval w b X)
  | Sub a b => sub (eval w a X) (eval w b X)
  | Mul a b => mul (eval w a X) (eval w b X)
  | Div a b => div (eval w a X) (eval w b X)
  | Dot a b => dotv (eval w a X) (eval w b X)
  end.

(** The value of an expression given by its string. *)
Definition value_of (w : workspace) (s : string) (X : vec) : option value :=
  match read s with
  | Some e => eval w e X
  | None => None
  end.

(** The point an expression given by its string sends [X] to. *)
Definition image_of (w : workspace) (s : string) (X : vec) : option vec :=
  match value_of w s X with
  | Some (Vec Y) => Some Y
  | _ => None
  end.

End Assembly.

(** ** Finite element spaces and integration methods (script lines 137-154) *)

Module Fem.

Inductive fem : Type :=
| Classical (k : Z)
| ClassicalDiscontinuous (k : Z).

Record MeshFem : Type := mk_MeshFem {
  mf_mesh : Meshes.Mesh;
  mf_qdim : Z;
  mf_fem : option fem
}.

(** [gf.MeshFem(mesh, qdim)] *)
Definition new_MeshFem (m : Meshes.Mesh) (qdim : Z) : MeshFem := mk_MeshFem m qdim None.

Definition set_classical_fem (k : Z) (mf : MeshFem) : MeshFem :=
  mk_MeshFem (mf_mesh mf) (mf_qdim mf) (Some (Classical k)).

Definition set_classical_discontinuous_fem (k : Z) (mf : MeshFem) : MeshFem :=
  mk_MeshFem (mf_mesh mf) (mf_qdim mf) (Some (ClassicalDiscontinuous k)).

Definition degree (mf : MeshFem) : option Z :=
  match mf_fem mf with
  | Some (Classical k) => Some k
  | Some (ClassicalDiscontinuous k) => Some k
  | None => None
  end.

(** [gf.MeshIm(mesh, degree)] *)
Record MeshIm : Type := mk_MeshIm {
  mim_mesh : Meshes.Mesh;
  mim_degree : Z
}.

End Fem.

(** ** The model object: variables, data, transformations, bricks *)

Module Models.
Import Plane Fem Assembly.

Inductive data_value : Type :=
| Array1 (l : list R)
| Array2 (l : list (list R)).

Inductive variable_decl : Type :=
| FemVariable (mf : MeshFem)
| FilteredFemVariable (mf : MeshFem) (region : Z).

Record transformation_decl : Type := mk_transformation {
  tr_source : Meshes.Mesh;
  tr_target : Meshes.Mesh;
  tr_expression : string
}.

Inductive brick : Type :=
| IsotropicLinearizedElasticity
    (mim : MeshIm) (varname dataname_lambda dataname_mu : string)
| GeneralizedDirichletWithMultipliers
    (mim : MeshIm) (varname : string) (mf_mult : MeshFem) (region : Z)
    (dataname Hname : string)
| NonlinearTerm (mim : MeshIm) (expression : string) (region : Z).

Record Model : Type := mk_Model {
  variables : list (string * variable_decl);
  data : list (string * data_value);
  transformations : list (string * transformation_decl);
  bricks : list brick
}.

(** [gf.Model("real")] *)
Definition empty : Model := mk_Model [] [] [] [].

Fixpoint lookup (A : Type) (name : string) (l : list (string * A)) : option A :=
  match l with
  | [] => None
  | (n, a) :: l' => if String.eqb n name then Some a else lookup name l'
  end.

(** *** The calls of the script, in the order they extend the model *)

Definition add_variable (name : string) (d : variable_decl) (md : Model) : Model :=
  mk_Model (variables md ++ [(name, d)]) (data md) (transformations md) (bricks md).

Definition add_data (name : string) (d : data_value) (md : Model) : Model :=
  mk_Model (variables md) (data md ++ [(name, d)]) (transformations md) (bricks md).

Definition add_transformation (name : string) (d : transformation_decl) (md : Model) : Model :=
  mk_Model (variables md) (data md) (transformations md ++ [(name, d)]) (bricks md).

Definition add_brick (b : brick) (md : Model) : Model :=
  mk_Model (variables md) (data md) (transformations md) (bricks md ++ [b]).

Definition is_elasticity (b : brick) : bool :=
  match b with
  | IsotropicLinearizedElasticity _ _ _ _ => true
  | _ => false
  end.

(** The linearized elasticity bricks of the model, in order. *)
Definition elasticity_bricks (md : Model) : list brick := filter is_elasticity (bricks md).

(** *** From the model to the workspace of its expressions *)

(** The interpolated fields at some state of the unknowns, by variable name. *)
Record fields : Type := mk_fields {
  field : string -> option (vec -> value);
  test_field : string -> option (vec -> value);
  size : vec -> R
}.

Definition value_of_data (d : data_value) : option value :=
  match d with
  | Array1 [x] => Some (Scalar x)
  | Array1 [x; y] => Some (Vec (x, y))
  | _ => None
  end.

Definition declared (A : Type) (md : Model) (name : string) (a : option A) : option A :=
  match lookup name (variables md) with
  | Some _ => a
  | None => None
  end.

Definition constant_of (md : Model) (name : string) : option value :=
  match lookup name (data md) with
  | Some d => value_of_data d
  | None => None
  end.

(** The workspace in which the expressions of the transformations are read:
    they may mention the point, the data and the variables. *)
Definition base_workspace (md : Model) (fs : fields) : workspace :=
  mk_workspace
    (fun s => declared md s (field fs s))
    (fun s => declared md s (test_field fs s))
    (constant_of md)
    (size fs)
    (fun _ => None).

Definition transformation_of (md : Model) (fs : fields) (name : string)
  : option (vec -> option vec) :=
  match lookup name (transformations md) with
  | Some d => Some (image_of (base_workspace md fs) (tr_expression d))
  | None => None
  end.

Definition workspace_of (md : Model) (fs : fields) : workspace :=
  mk_workspace
    (fun s => declared md s (field fs s))
    (fun s => declared md s (test_field fs s))
    (constant_of md)
    (size fs)
    (transformation_of md fs).

(** The integrand of a term of the model at the point [X]. *)
Definition integrand (md : Model) (fs : fields) (expression : string) (X : vec)
  : option value :=
  value_of (workspace_of md fs) expression X.

(** *** Degrees of freedom of a variable *)

Section Dofs.

(** The degrees of freedom of a finite element space and the faces on
    which each of them lies, as the library numbers them. *)
Variable basic_dof : MeshFem -> list nat.
Variable dof_on_face : MeshFem -> nat -> Meshes.Face -> bool.

(** Modelled from the spec: the library call
    [md.add_filtered_fem_variable(name, mf, region)], whose body is not part
    of the repository.  The variable keeps the degrees of freedom of [mf]
    that lie on the region and no other. *)
Definition dofs_of (d : variable_decl) : list nat :=
  match d with
  | FemVariable mf => basic_dof mf
  | FilteredFemVariable mf r =>
      filter (fun i => existsb (dof_on_face mf i) (Meshes.region (mf_mesh mf) r))
             (basic_dof mf)
  end.

End Dofs.

End Models.

(** ** The Newton iterations behind [md.solve] (script line 276) *)

Module Solver.

Local Open Scope R_scope.

Record options : Type := mk_options {
  max_res : R;
  max_iter : nat;
  noisy : bool
}.

Section Newton.

(** The state of all the unknowns, the norm of the residual assembled at a
    state, and one Newton update, line search included. *)
Variable unknowns : Type.
Variable residual_norm : unknowns -> R.
Variable newton_step : unknowns -> unknowns.

Inductive outcome : Type :=
| Converged (U : unknowns) (nbit : nat)
| NonConvergence (U : unknowns) (nbit : nat).

(** Modelled from the spec: the Newton loop of the library, whose body is
    not part of the repository.  It updates the unknowns until the norm of
    the residual is below the tolerance or the maximum iteration count is
    reached; an exhausted count without the tolerance met is reported as a
    distinct outcome. *)
Fixpoint iterate (tol : R) (left : nat) (nbit : nat) (U : unknowns) : outcome :=
  if Rlt_dec (residual_norm U) tol then Converged U nbit
  else match left with
       | O => NonConvergence U nbit
       | S left' => iterate tol left' (S nbit) (newton_step U)
       end.

Definition standard_solve (o : options) (U0 : unknowns) : outcome :=
  iterate (max_res o) (max_iter o) 0 U0.

(** The state after [k] updates. *)
Fixpoint after (k : nat) (U : unknowns) : unknowns :=
  match k with
  | O => U
  | S k' => after k' (newton_step U)
  end.

End Newton.

End Solver.

(** ** The script *)

Module Hertz.
Import Meshes Plane Boundary Fem Models.

Local Open Scope R_scope.
Local Open Scope string_scope.

(** *** Parameters (script lines 26-38) *)

Record Params : Type := mk_Params {
  E : R;                 (* Young modulus *)
  nu : R;                (* Poisson ratio *)
  elements_degree : Z;   (* degree of the finite element methods *)
  applied_force : R      (* force at the top boundary *)
}.

Definition clambda (p : Params) : R := E p * nu p / ((1 + nu p) * (1 - 2 * nu p)).
Definition cmu (p : Params) : R := E p / (2 * (1 + nu p)).
Definition clambdastar (p : Params) : R :=
  2 * clambda p * cmu p / (clambda p + 2 * cmu p).
Definition gamma0 (p : Params) : R := 1 / E p.

(** The values the script gives them. *)
Definition script_params : Params := mk_Params 200000 (3 / 10) 2 (200 * 100).

Definition set_applied_force (a : R) (p : Params) : Params :=
  mk_Params (E p) (nu p) (elements_degree p) a.

(** *** Region numbers (script lines 113-117) *)

Definition HOLE_BOUND : Z := 1.
Definition CONTACT_BOUND : Z := 2.
Definition BOTTOM_BOUND : Z := 3.
Definition TOP_BOUND : Z := 4.
Definition LEFT_BOUND : Z := 5.

(** *** What the script exports (script lines 288-295) *)

Record Output : Type := mk_Output {
  U1 : list R;
  U2 : list R;
  VM1 : list R;
  VM2 : list R
}.

(** A request for Von Mises stresses:
    [md.compute_isotropic_linearized_Von_Mises_or_Tresca(var, lambda, mu, mf)] *)
Record VonMises : Type := mk_VonMises {
  vm_varname : string;
  vm_dataname_lambda : string;
  vm_dataname_mu : string;
  vm_mf : MeshFem
}.

(** The fields the contact terms mention: the displacements [u1] and [u2]
    are plane vector fields, the multiplier [lambda1] is a scalar field, and
    so are their test functions; [hT] is the size of the element around a
    point. *)
Definition contact_fields
  (u1 u2 : vec -> vec) (lambda1 : vec -> R)
  (du1 du2 : vec -> vec) (dlambda1 : vec -> R) (hT : vec -> R) : fields :=
  mk_fields
    (fun s =>
       if String.eqb s "u1" then Some (fun X => Assembly.Vec (u1 X))
       else if String.eqb s "u2" then Some (fun X => Assembly.Vec (u2 X))
       else if String.eqb s "lambda1" then Some (fun X => Assembly.Scalar (lambda1 X))
       else None)
    (fun s =>
       if String.eqb s "u1" then Some (fun X => Assembly.Vec (du1 X))
       else if String.eqb s "u2" then Some (fun X => Assembly.Vec (du2 X))
       else if String.eqb s "lambda1" then Some (fun X => Assembly.Scalar (dlambda1 X))
       else None)
    hT.

(** [np.pi]: the double nearest to pi, 884279719003555 / 2^48.  Halving a
    double is exact, so [np.pi / 2.0] is [np_pi / 2]. *)
Definition np_pi : R := 884279719003555 / 281474976710656.

Section Script.

(** The library is a collaborator of the script.  What it computes from the
    geometry and from the assembled system is taken as given: the content of
    the mesh file, the boundary faces of a mesh and their unit outward
    normals, the state of the unknowns of a model before the solve, the norm
    of the residual and the Newton update at a state, the values
    [md.variable(name)] of a variable and the Von Mises stresses. *)
Variable imported : Meshes.Mesh.
Variable outer_faces : Meshes.Mesh -> list Face.
Variable normal : Meshes.Mesh -> Face -> vec.
Variable unknowns : Type.
Variable initial : Models.Model -> unknowns.
Variable residual_norm : Models.Model -> unknowns -> R.
Variable newton_step : Models.Model -> unknowns -> unknowns.
Variable variable : unknowns -> string -> list R.
Variable von_mises : Models.Model -> unknowns -> VonMises -> list R.

Variable p : Params.

(** Boundary selection (script lines 100-124).  The tolerance [np.pi / 2.0]
    is the double [np_pi / 2]; the literal [0.01] is read as the decimal it
    writes. *)

Definition select (m : Meshes.Mesh) (v : vec) (tol : R) : list Face :=
  outer_faces_with_direction (outer_faces m) (normal m) v tol.

Definition fb2 : list Face := select (Split.mesh1 imported) (0, -1) (np_pi / 2).
Definition fb3 : list Face := select (Split.mesh2 imported) (0, -1) (1 / 100).
Definition fb4 : list Face := select (Split.mesh1 imported) (0, 1) (np_pi / 2).
Definition fb5 : list Face := select (Split.mesh2 imported) (0, 1) (np_pi / 2).
Definition fb6 : list Face := select (Split.mesh1 imported) (-1, 0) (1 / 100).
Definition fb7 : list Face := select (Split.mesh2 imported) (-1, 0) (1 / 100).

(** The two meshes once their regions are set (script lines 119-124): the
    [mesh1] of the script, the wheel, and its [mesh2], the foundation, as
    the rest of the script uses them. *)
Definition wheel : Meshes.Mesh :=
  set_region LEFT_BOUND fb6
    (set_region TOP_BOUND fb4
       (set_region CONTACT_BOUND fb2 (Split.mesh1 imported))).

Definition foundation : Meshes.Mesh :=
  set_region LEFT_BOUND fb7
    (set_region CONTACT_BOUND fb5
       (set_region BOTTOM_BOUND fb3 (Split.mesh2 imported))).

(** Finite element and integration methods (script lines 137-154). *)

Definition mfu1 := set_classical_fem (elements_degree p) (new_MeshFem wheel 2).
Definition mfd1 := set_classical_fem (elements_degree p) (new_MeshFem wheel 1).
Definition mflambda := set_classical_fem (elements_degree p - 1) (new_MeshFem wheel 2).
Definition mflambda_C := set_classical_fem (elements_degree p - 1) (new_MeshFem wheel 1).
Definition mfu2 := set_classical_fem (elements_degree p) (new_MeshFem foundation 2).
Definition mfd2 := set_classical_fem (elements_degree p) (new_MeshFem foundation 1).
Definition mfvm1 :=
  set_classical_discontinuous_fem (elements_degree p) (new_MeshFem wheel 1).
Definition mfvm2 :=
  set_classical_discontinuous_fem (elements_degree p) (new_MeshFem foundation 1).
Definition mim1 := mk_MeshIm wheel (Z.pow (elements_degree p) 2).
Definition mim2 := mk_MeshIm foundation (Z.pow (elements_degree p) 2).

(** The calls on the model object [md] (script lines 166-257). *)

Definition call (f : Models.Model -> Models.Model) : state Models.Model unit :=
  (md <- get ;; put (f md))%monad.

Definition add_fem_variable (name : string) (mf : MeshFem) :=
  call (add_variable name (FemVariable mf)).

Definition add_filtered_fem_variable (name : string) (mf : MeshFem) (region : Z) :=
  call (add_variable name (FilteredFemVariable mf region)).

Definition add_initialized_data (name : string) (l : list R) :=
  call (add_data name (Array1 l)).

(** [md.add_initialized_data] with a list of rows, as for [H0]. *)
Definition add_initialized_matrix (name : string) (l : list (list R)) :=
  call (add_data name (Array2 l)).

Definition add_isotropic_linearized_elasticity_brick
  (mim : MeshIm) (varname dataname_lambda dataname_mu : string) :=
  call (add_brick (IsotropicLinearizedElasticity mim varname dataname_lambda dataname_mu)).

Definition add_generalized_Dirichlet_condition_with_multipliers
  (mim : MeshIm) (varname : string) (mf_mult : MeshFem) (region : Z)
  (dataname Hname : string) :=
  call (add_brick
          (GeneralizedDirichletWithMultipliers mim varname mf_mult region dataname Hname)).

Definition add_interpolate_transformation_from_expression
  (name : string) (source target : Meshes.Mesh) (expression : string) :=
  call (add_transformation name (mk_transformation source target expression)).

Definition add_nonlinear_term (mim : MeshIm) (expression : string) (region : Z) :=
  call (add_brick (NonlinearTerm mim expression region)).

Definition displacement_term : string :=
  "lambda1*(Test_u1.[0;1])-lambda1*(Interpolate(Test_u2,Proj1).[0;1])".

Definition multiplier_term : string :=
  "-(gamma0*element_size)*(lambda1 + neg_part(lambda1+(1/(gamma0*element_size))*((u1-Interpolate(u2,Proj1)+X-Interpolate(X,Proj1)).[0;1])))*Test_lambda1".

Definition build : state Models.Model unit :=
  (add_fem_variable "u1" mfu1 ;;
   add_fem_variable "u2" mfu2 ;;
   add_initialized_data "cmu" [cmu p] ;;
   add_initialized_data "clambdastar" [clambdastar p] ;;
   add_isotropic_linearized_elasticity_brick mim1 "u1" "clambdastar" "cmu" ;;
   add_isotropic_linearized_elasticity_brick mim2 "u2" "clambdastar" "cmu" ;;
   add_initialized_data "r0" [0; - (1 / 10)] ;;
   add_initialized_data "r1" [0; 0] ;;
   add_initialized_data "r2" [0; 0] ;;
   add_initialized_data "r3" [0; 0] ;;
   add_initialized_matrix "H0" [[0; 0]; [0; 1]] ;;
   add_initialized_matrix "H1" [[1; 0]; [0; 0]] ;;
   add_initialized_matrix "H2" [[1; 0]; [0; 0]] ;;
   add_initialized_matrix "H3" [[0; 0]; [0; 1]] ;;
   add_generalized_Dirichlet_condition_with_multipliers
     mim1 "u1" mfu1 TOP_BOUND "r0" "H0" ;;
   add_generalized_Dirichlet_condition_with_multipliers
     mim1 "u1" mfu1 LEFT_BOUND "r1" "H1" ;;
   add_generalized_Dirichlet_condition_with_multipliers
     mim2 "u2" mfu2 LEFT_BOUND "r2" "H2" ;;
   add_generalized_Dirichlet_condition_with_multipliers
     mim2 "u2" mfu2 BOTTOM_BOUND "r3" "H3" ;;
   add_interpolate_transformation_from_expression
     "Proj1" wheel foundation "[X(1);-X(2)]" ;;
   add_initialized_data "gamma0" [gamma0 p] ;;
   add_filtered_fem_variable "lambda1" mflambda_C CONTACT_BOUND ;;
   add_nonlinear_term mim1 displacement_term CONTACT_BOUND ;;
   add_nonlinear_term mim1 multiplier_term CONTACT_BOUND)%monad.

(** The model when [md.solve] is called. *)
Definition md : Models.Model := execState build Models.empty.

(** [md.solve("max_res", 1e-9, "max_iter", 100, "noisy")] *)
Definition solve_options : Solver.options :=
  Solver.mk_options (1 / 1000000000) 100 true.

Definition solve : Solver.outcome unknowns :=
  Solver.standard_solve (residual_norm md) (newton_step md) solve_options (initial md).

(** Post-processing (script lines 288-295). *)
Definition vm1 : VonMises := mk_VonMises "u1" "clambdastar" "cmu" mfvm1.
Definition vm2 : VonMises := mk_VonMises "u2" "clambdastar" "cmu" mfvm2.

Definition export (U : unknowns) : Output :=
  mk_Output (variable U "u1") (variable U "u2")
            (von_mises md U vm1) (von_mises md U vm2).

(** The state of the unknowns the model holds once [md.solve] has returned.
    The script does not read what the call returns: it goes on with the
    values of the model whatever the outcome. *)
Definition solved : unknowns :=
  match solve with
  | Solver.Converged U _ => U
  | Solver.NonConvergence U _ => U
  end.

(** The whole run. *)
Definition run : Output := export solved.

End Script.

End Hertz.

(** ** The names a model mentions *)

Module Names.
Import Gwfl Fem Models.

(** The variables, test functions and data an expression mentions. *)
Fixpoint mentions (e : expr) : list string :=
  match e with
  | Num _ | Point | ElementSize => []
  | Name s | TestOf s => [s]
  | Component a _ | NegPart a | Neg a | Interpolate a _ => mentions a
  | Vector a b | Add a b | Sub a b | Mul a b | Div a b | Dot a b =>
      mentions a ++ mentions b
  end.

(** Those it reads at the point itself, outside any [Interpolate]. *)
Fixpoint direct (e : expr) : list string :=
  match e with
  | Num _ | Point | ElementSize | Interpolate _ _ => []
  | Name s | TestOf s => [s]
  | Component a _ | NegPart a | Neg a => direct a
  | Vector a b | Add a b | Sub a b | Mul a b | Div a b | Dot a b =>
      direct a ++ direct b
  end.

(** Those it reads through a transformation, with that transformation. *)
Fixpoint through (e : expr) : list (string * string) :=
  match e with
  | Num _ | Point | ElementSize | Name _ | TestOf _ => []
  | Interpolate a t => map (fun s => (t, s)) (mentions a) ++ through a
  | Component a _ | NegPart a | Neg a => through a
  | Vector a b | Add a b | Sub a b | Mul a b | Div a b | Dot a b =>
      through a ++ through b
  end.

(** The transformations it names. *)
Fixpoint transformations_in (e : expr) : list string :=
  match e with
  | Num _ | Point | ElementSize | Name _ | TestOf _ => []
  | Interpolate a t => t :: transformations_in a
  | Component a _ | NegPart a | Neg a => transformations_in a
  | Vector a b | Add a b | Sub a b | Mul a b | Div a b | Dot a b =>
      transformations_in a ++ transformations_in b
  end.

(** The variable and data names a brick is given. *)
Definition brick_names (b : brick) : list string :=
  match b with
  | IsotropicLinearizedElasticity _ v l m => [v; l; m]
  | GeneralizedDirichletWithMultipliers _ v _ _ r H => [v; r; H]
  | NonlinearTerm _ s _ =>
      match read s with
      | Some e => mentions e
      | None => []
      end
  end.

Definition brick_transformations (b : brick) : list string :=
  match b with
  | NonlinearTerm _ s _ =>
      match read s with
      | Some e => transformations_in e
      | None => []
      end
  | _ => []
  end.

(** A brick whose expression cannot be read is not well formed. *)
Definition readable (b : brick) : bool :=
  match b with
  | NonlinearTerm _ s _ =>
      match read s with
      | Some _ => true
      | None => false
      end
  | _ => true
  end.

Definition declared (md : Model) : list string :=
  map fst (variables md) ++ map fst (data md).

Definition mesh_of (d : variable_decl) : Meshes.Mesh :=
  match d with
  | FemVariable mf => mf_mesh mf
  | FilteredFemVariable mf _ => mf_mesh mf
  end.

Definition qdim_of (d : variable_decl) : Z :=
  match d with
  | FemVariable mf => mf_qdim mf
  | FilteredFemVariable mf _ => mf_qdim mf
  end.

End Names.

(** ** The data of the Dirichlet conditions (script lines 187-208) *)

Module Dirichlet.
Import Plane Models.

Local Open Scope R_scope.

(** The product of a two by two matrix, given by its rows, and a vector. *)
Definition mat_vec (H : list (list R)) (u : vec) : option vec :=
  match H with
  | [[a; b]; [c; d]] => Some (a * fst u + b * snd u, c * fst u + d * snd u)
  | _ => None
  end.

Definition vector_data (md : Model) (name : string) : option vec :=
  match lookup name (data md) with
  | Some (Array1 [x; y]) => Some (x, y)
  | _ => None
  end.

Definition matrix_data (md : Model) (name : string) : option (list (list R)) :=
  match lookup name (data md) with
  | Some (Array2 H) => Some H
  | _ => None
  end.

(** Modelled from the spec: the condition of the library brick
    [add_generalized_Dirichlet_condition_with_multipliers], whose body is
    not part of the repository.  With the data [r] and [H] it is read
    either as [H u = r], here, or as [H (u - r) = 0], below. *)
Definition prescribes (md : Model) (dataname Hname : string) (u : vec) : Prop :=
  exists r H, vector_data md dataname = Some r
              /\ matrix_data md Hname = Some H
              /\ mat_vec H u = Some r.

Definition prescribes_difference
  (md : Model) (dataname Hname : string) (u : vec) : Prop :=
  exists r H, vector_data md dataname = Some r
              /\ matrix_data md Hname = Some H
              /\ mat_vec H (vsub u r) = Some (0, 0).

Definition is_dirichlet (b : brick) : bool :=
  match b with
  | GeneralizedDirichletWithMultipliers _ _ _ _ _ _ => true
  | _ => false
  end.

(** The Dirichlet bricks of the model, in order. *)
Definition dirichlet_bricks (md : Model) : list brick := filter is_dirichlet (bricks md).

End Dirichlet.

(** ** The quantities of the contact condition (script lines 245-257) *)

Module Gap.
Import Plane Hertz.

Local Open Scope R_scope.

(** The image of a point across the horizontal axis. *)
Definition Pi (X : vec) : vec := (fst X, - snd X).

(** The gap along n = (0,1) between the moved point of the wheel and the
    moved point of the foundation it is paired with. *)
Definition gap (u1 u2 : vec -> vec) (X : vec) : R :=
  dot (vsub (vadd X (u1 X)) (vadd (Pi X) (u2 (Pi X)))) (0, 1).

(** The augmented multiplier. *)
Definition augmented
  (p : Params) (hT lambda1 : vec -> R) (u1 u2 : vec -> vec) (X : vec) : R :=
  lambda1 X + 1 / (gamma0 p * hT X) * gap u1 u2 X.

End Gap.

(** ** Small inputs on which the statements are tried *)

Module Samples.
Import Meshes Plane.

Local Open Scope R_scope.

(** A small mesh around the axis: after the translation its points have
    ordinates -1, -1, 1, 1, 0, 0.  Convex 0 lies below, convex 1 above,
    convex 2 crosses the axis and convex 3 lies on it. *)
Definition sample : Meshes.Mesh :=
  Meshes.mk_Mesh
    [(0, -6); (1, -6); (0, -4); (1, -4); (0, -5); (1, -5)]%Q
    [(0, [0; 1; 4]); (1, [2; 3; 5]); (2, [0; 1; 2]); (3, [4; 5])]%nat
    [].

(** One triangle, which the translation puts at (0,0), (4,0), (0,3): it
    belongs to the wheel.  Its face 0 is the hypotenuse, its face 1 the
    vertical side on the axis x = 0 and its face 2 the horizontal side. *)
Definition triangle : Meshes.Mesh :=
  Meshes.mk_Mesh [(0, -5); (4, -5); (0, -2)]%Q [(0, [0; 1; 2])]%nat [].

Definition triangle_faces (m : Meshes.Mesh) : list Face :=
  map (fun i => (0, i)%nat) (seq 0 (3 * List.length (cvs m))).

Definition triangle_normal (m : Meshes.Mesh) (f : Face) : vec :=
  match snd f with
  | O => (3 / 5, 4 / 5)
  | S O => (-1, 0)
  | _ => (0, -1)
  end.

(** A triangle that leans, which the translation puts at (500,0),
    (500,62499), (0,62499): it belongs to the wheel.  Its face 0 is the top
    side, its face 1 the left side, which leans by less than a hundredth of
    a radian, and its face 2 the vertical right side. *)
Definition leaning : Meshes.Mesh :=
  Meshes.mk_Mesh [(500, -5); (500, 62494); (0, 62494)]%Q [(0, [0; 1; 2])]%nat [].

Definition leaning_normal (m : Meshes.Mesh) (f : Face) : vec :=
  match snd f with
  | O => (0, 1)
  | S O => (- (62499 / 62501), - (500 / 62501))
  | _ => (1, 0)
  end.

(** Two triangles that meet at the point (500,0) of the axis: convex 0 is
    the leaning triangle above, convex 1 its mirror image below, at (500,0),
    (500,-62499), (0,-62499), whose face 0 is the bottom side, face 1 the
    leaning left side and face 2 the vertical right side. *)
Definition two_bodies : Meshes.Mesh :=
  Meshes.mk_Mesh
    [(500, -5); (500, 62494); (0, 62494); (500, -62504); (0, -62504)]%Q
    [(0, [0; 1; 2]); (1, [0; 3; 4])]%nat
    [].

Definition body_faces (m : Meshes.Mesh) : list Face :=
  flat_map (fun cv => [(fst cv, 0); (fst cv, 1); (fst cv, 2)]%nat) (cvs m).

Definition body_normal (m : Meshes.Mesh) (f : Face) : vec :=
  match fst f, snd f with
  | O, O => (0, 1)
  | O, S O => (- (62499 / 62501), - (500 / 62501))
  | O, _ => (1, 0)
  | _, O => (0, -1)
  | _, S O => (- (62499 / 62501), 500 / 62501)
  | _, _ => (1, 0)
  end.

(** The faces and normals the library gives for the wheel of the triangle
    sample. *)
Definition wheel_faces : list Face := triangle_faces (Split.mesh1 triangle).
Definition wheel_normal : Face -> vec := triangle_normal (Split.mesh1 triangle).

(** Fields to try the contact terms on: no displacement, a uniform
    pressure, elements of size 1. *)
Definition still : vec -> vec := fun _ => (0, 0).
Definition pressure : vec -> R := fun _ => -3.
Definition unit_size : vec -> R := fun _ => 1.

End Samples.

(** * Properties *)

Unset Implicit Arguments.

(** ** Splitting the mesh *)

Module SplitFacts.
Import Meshes Split.

Lemma mem_In (n : nat) (l : list nat) : mem n l = true <-> In n l.
Proof.
  unfold mem. rewrite existsb_exists. split.
  - intros [x [Hx Hn]]. apply Nat.eqb_eq in Hn. now subst.
  - intros H. exists n. split; [assumption | apply Nat.eqb_refl].
Qed.

(** The indices kept by [compress] over [range] are those of the entries
    that pass the test. *)
Lemma In_compress_seq (A : Type) (f : A -> bool) (l : list A) (s i : nat) :
  In i (compress (map f l) (seq s (List.length l)))
  <-> exists x, (s <= i)%nat /\ nth_error l (i - s) = Some x /\ f x = true.
Proof.
  revert s. induction l as [| a l IH]; intros s; simpl.
  - split; [contradiction |]. intros [x [_ [H _]]].
    destruct (i - s)%nat; discriminate.
  - assert (Htail : In i (compress (map f l) (seq (S s) (List.length l)))
                    <-> exists x, (S s <= i)%nat /\ nth_error (a :: l) (i - s) = Some x
                                  /\ f x = true).
    { rewrite IH. split; intros [x [Hle [Hn Hf]]]; exists x; repeat split; try assumption.
      - replace (i - s)%nat with (S (i - S s)) by lia. exact Hn.
      - replace (i - s)%nat with (S (i - S s)) in Hn by lia. exact Hn. }
    destruct (f a) eqn:Ha; simpl; rewrite Htail.
    + split.
      * intros [Heq | [x [Hle [Hn Hf]]]].
        -- subst i. exists a. rewrite Nat.sub_diag. simpl. auto.
        -- exists x. repeat split; [lia | assumption | assumption].
      * intros [x [Hle [Hn Hf]]].
        destruct (Nat.eq_dec s i) as [Heq | Hne]; [now left | right].
        exists x. repeat split; [lia | assumption | assumption].
    + split.
      * intros [x [Hle [Hn Hf]]]. exists x. repeat split; [lia | assumption | assumption].
      * intros [x [Hle [Hn Hf]]]. exists x. repeat split; try assumption.
        destruct (Nat.eq_dec s i) as [Heq | Hne]; [| lia].
        subst i. rewrite Nat.sub_diag in Hn. simpl in Hn.
        injection Hn as Hn. subst x. congruence.
Qed.

Lemma In_pid1 (imported : Meshes.Mesh) (i : nat) :
  In i (pid1 imported)
  <-> exists xy, nth_error (pts (mesh imported)) i = Some xy /\ (0 <= snd xy)%Q.
Proof.
  unfold pid1, c1, row1, P, nbpts. rewrite map_map.
  rewrite (In_compress_seq _ (fun xy => Qle_bool 0 (snd xy))).
  rewrite Nat.sub_0_r.
  split.
  - intros [x [_ [Hn Hf]]]. exists x. split; [assumption | now apply Qle_bool_iff].
  - intros [x [Hn Hf]]. exists x. repeat split; [lia | assumption | now apply Qle_bool_iff].
Qed.

Lemma In_pid2 (imported : Meshes.Mesh) (i : nat) :
  In i (pid2 imported)
  <-> exists xy, nth_error (pts (mesh imported)) i = Some xy /\ (snd xy <= 0)%Q.
Proof.
  unfold pid2, c2, row1, P, nbpts. rewrite map_map.
  rewrite (In_compress_seq _ (fun xy => Qle_bool (snd xy) 0)).
  rewrite Nat.sub_0_r.
  split.
  - intros [x [_ [Hn Hf]]]. exists x. split; [assumption | now apply Qle_bool_iff].
  - intros [x [Hn Hf]]. exists x. repeat split; [lia | assumption | now apply Qle_bool_iff].
Qed.

Lemma In_cvid_from_pid (m : Meshes.Mesh) (pids : list nat) (c : nat) :
  In c (cvid_from_pid m pids)
  <-> exists cv, In cv (cvs m) /\ fst cv = c /\ forall q, In q (snd cv) -> In q pids.
Proof.
  unfold cvid_from_pid. rewrite in_map_iff. split.
  - intros [cv [Hc Hin]]. apply filter_In in Hin. destruct Hin as [Hin Hall].
    exists cv. repeat split; try assumption.
    intros q Hq. rewrite forallb_forall in Hall. apply mem_In. now apply Hall.
  - intros [cv [Hin [Hc Hall]]]. exists cv. split; [assumption |].
    apply filter_In. split; [assumption |].
    apply forallb_forall. intros q Hq. apply mem_In. now apply Hall.
Qed.

(** Two convexes of a mesh with the same id are the same convex. *)
Lemma same_id (l : list (nat * list nat)) (a b : nat * list nat) :
  NoDup (map fst l) -> In a l -> In b l -> fst a = fst b -> a = b.
Proof.
  induction l as [| x l IH]; simpl; intros Hnd Ha Hb Hab; [contradiction |].
  inversion Hnd as [| y l' Hnotin Hnd']; subst.
  destruct Ha as [Ha | Ha], Hb as [Hb | Hb].
  - congruence.
  - subst x. exfalso. apply Hnotin. rewrite Hab. now apply in_map.
  - subst x. exfalso. apply Hnotin. rewrite <- Hab. now apply in_map.
  - now apply IH.
Qed.

Lemma In_del_convex (m : Meshes.Mesh) (cvids : list nat) (cv : nat * list nat) :
  In cv (cvs (del_convex cvids m)) <-> In cv (cvs m) /\ ~ In (fst cv) cvids.
Proof.
  unfold del_convex. simpl. rewrite filter_In.
  split; intros [Hin H]; split; try assumption.
  - intros Hc. apply mem_In in Hc. rewrite Hc in H. discriminate.
  - destruct (mem (fst cv) cvids) eqn:Hm; [| reflexivity].
    apply mem_In in Hm. contradiction.
Qed.

Lemma selected_iff (m : Meshes.Mesh) (pids : list nat) (cv : nat * list nat) :
  NoDup (map fst (cvs m)) -> In cv (cvs m) ->
  (In (fst cv) (cvid_from_pid m pids) <-> forall q, In q (snd cv) -> In q pids).
Proof.
  intros Hnd Hin. rewrite In_cvid_from_pid. split.
  - intros [cv' [Hin' [Hid Hall]]].
    assert (cv' = cv) by (now apply (same_id (cvs m))). now subst.
  - intros Hall. now exists cv.
Qed.

End SplitFacts.

Module SplitSpec.
Import Meshes Split SplitFacts Samples.

Example sample_mesh1 :
  map fst (cvs (mesh1 sample)) = [1; 2]%nat.
Proof. vm_compute. reflexivity. Qed.

Example sample_mesh2 :
  map fst (cvs (mesh2 sample)) = [0; 2]%nat.
Proof. vm_compute. reflexivity. Qed.

(** C10.  The script translates the imported mesh by (0,5).  The wheel
    [mesh1] is that mesh without exactly the convexes all of whose vertices
    have y <= 0, and the foundation [mesh2] is that mesh without exactly the
    convexes all of whose vertices have y >= 0.  Hence a convex with a vertex
    strictly on each side of y = 0 stays in both, and a convex with all its
    vertices on y = 0 stays in neither.  Convex ids are distinct. *)
Theorem mesh_split (imported : Meshes.Mesh) :
  NoDup (map fst (cvs imported)) ->
  let m := mesh imported in
  pts m = map (fun xy => (fst xy + 0, snd xy + 5)%Q) (pts imported)
  /\ cvs m = cvs imported
  /\ (forall cv, In cv (cvs (mesh1 imported))
                 <-> In cv (cvs m) /\ ~ all_vertices (fun xy => snd xy <= 0)%Q m cv)
  /\ (forall cv, In cv (cvs (mesh2 imported))
                 <-> In cv (cvs m) /\ ~ all_vertices (fun xy => 0 <= snd xy)%Q m cv)
  /\ (forall cv, In cv (cvs m) ->
                 some_vertex (fun xy => snd xy < 0)%Q m cv ->
                 some_vertex (fun xy => 0 < snd xy)%Q m cv ->
                 In cv (cvs (mesh1 imported)) /\ In cv (cvs (mesh2 imported)))
  /\ (forall cv, In cv (cvs m) ->
                 all_vertices (fun xy => snd xy == 0)%Q m cv ->
                 ~ In cv (cvs (mesh1 imported)) /\ ~ In cv (cvs (mesh2 imported))).
Proof.
  intros Hnd m.
  assert (Hnd' : NoDup (map fst (cvs m))) by exact Hnd.
  assert (H1 : forall cv, In cv (cvs (mesh1 imported))
                 <-> In cv (cvs m) /\ ~ all_vertices (fun xy => snd xy <= 0)%Q m cv).
  { intros cv. unfold mesh1. rewrite In_del_convex. fold m.
    split; intros [Hin Hno]; split; try assumption; intros Hc; apply Hno;
      pose proof (@selected_iff m (pid2 imported) cv Hnd' Hin) as Hsel.
    - apply Hsel. intros q Hq. apply In_pid2. now apply Hc.
    - intros q Hq. apply In_pid2. revert q Hq. now apply Hsel. }
  assert (H2 : forall cv, In cv (cvs (mesh2 imported))
                 <-> In cv (cvs m) /\ ~ all_vertices (fun xy => 0 <= snd xy)%Q m cv).
  { intros cv. unfold mesh2. rewrite In_del_convex. fold m.
    split; intros [Hin Hno]; split; try assumption; intros Hc; apply Hno;
      pose proof (@selected_iff m (pid1 imported) cv Hnd' Hin) as Hsel.
    - apply Hsel. intros q Hq. apply In_pid1. now apply Hc.
    - intros q Hq. apply In_pid1. revert q Hq. now apply Hsel. }
  split; [reflexivity |]. split; [reflexivity |].
  split; [exact H1 |]. split; [exact H2 |]. split.
  - intros cv Hin [q [xy [Hq [Hn Hlt]]]] [q' [xy' [Hq' [Hn' Hgt]]]]. split.
    + apply H1. split; [assumption |]. intros Hall.
      destruct (Hall q' Hq') as [z [Hz Hle]].
      rewrite Hn' in Hz. injection Hz as Hz. subst z.
      apply (Qlt_not_le _ _ Hgt Hle).
    + apply H2. split; [assumption |]. intros Hall.
      destruct (Hall q Hq) as [z [Hz Hle]].
      rewrite Hn in Hz. injection Hz as Hz. subst z.
      apply (Qlt_not_le _ _ Hlt Hle).
  - intros cv Hin Hall. split; intros Hc.
    + apply H1 in Hc. destruct Hc as [_ Hc]. apply Hc.
      intros q Hq. destruct (Hall q Hq) as [xy [Hn Hz]].
      exists xy. split; [assumption |]. rewrite Hz. apply Qle_refl.
    + apply H2 in Hc. destruct Hc as [_ Hc]. apply Hc.
      intros q Hq. destruct (Hall q Hq) as [xy [Hn Hz]].
      exists xy. split; [assumption |]. rewrite Hz. apply Qle_refl.
Qed.

Lemma sample_ids : NoDup (map fst (cvs sample)).
Proof.
  simpl. repeat constructor; simpl; intuition discriminate.
Defined.

(** The statement at the sample mesh: the crossing convex 2 is in both
    halves and the convex 3 on the axis is in neither. *)
Lemma mesh_split_witness :
  NoDup (map fst (cvs sample))
  /\ (In (2, [0; 1; 2])%nat (cvs (mesh1 sample))
      /\ In (2, [0; 1; 2])%nat (cvs (mesh2 sample)))
  /\ (~ In (3, [4; 5])%nat (cvs (mesh1 sample))
      /\ ~ In (3, [4; 5])%nat (cvs (mesh2 sample))).
Proof.
  pose proof (@mesh_split sample sample_ids) as H. simpl in H.
  destruct H as [_ [_ [_ [_ [Hcross Haxis]]]]].
  split; [exact sample_ids |]. split.
  - apply Hcross.
    + vm_compute. tauto.
    + exists 0%nat, (0 + 0, -6 + 5)%Q. vm_compute. tauto.
    + exists 2%nat, (0 + 0, -4 + 5)%Q. vm_compute. tauto.
  - apply Haxis.
    + vm_compute. tauto.
    + intros q Hq. simpl in Hq. destruct Hq as [Hq | [Hq | Hq]]; [| | contradiction]; subst q.
      * exists (0 + 0, -5 + 5)%Q. vm_compute. tauto.
      * exists (1 + 0, -5 + 5)%Q. vm_compute. tauto.
Defined.

End SplitSpec.

(** ** The contact terms *)

Module Contact.
Import Meshes Plane Gwfl Assembly Fem Models Hertz.

Local Open Scope R_scope.
Local Open Scope string_scope.

(** The three expressions of the script, as the reader parses them. *)

Lemma read_Proj1 :
  read "[X(1);-X(2)]" = Some (Vector (Component Point 1) (Neg (Component Point 2))).
Proof. vm_compute. reflexivity. Qed.

Lemma read_displacement_term :
  read displacement_term
  = Some (Sub (Mul (Name "lambda1") (Dot (TestOf "u1") (Vector (Num 0) (Num 1))))
              (Mul (Name "lambda1")
                   (Dot (Interpolate (TestOf "u2") "Proj1") (Vector (Num 0) (Num 1))))).
Proof. vm_compute. reflexivity. Qed.

Lemma read_multiplier_term :
  read multiplier_term
  = Some
      (Mul
         (Mul
            (Neg (Mul (Name "gamma0") ElementSize))
            (Add (Name "lambda1")
               (NegPart
                  (Add (Name "lambda1")
                     (Mul
                        (Div (Num 1) (Mul (Name "gamma0") ElementSize))
                        (Dot
                           (Sub
                              (Add
                                 (Sub (Name "u1") (Interpolate (Name "u2") "Proj1"))
                                 Point)
                              (Interpolate Point "Proj1"))
                           (Vector (Num 0) (Num 1))))))))
         (TestOf "lambda1")).
Proof. vm_compute. reflexivity. Qed.

(** The negative part is [-t] where [t] is negative and [0] elsewhere. *)
Lemma neg_part_nonneg (t : R) : 0 <= neg_part t.
Proof. unfold neg_part. apply Rmax_r. Qed.

Lemma neg_part_neg (t : R) : t <= 0 -> neg_part t = - t.
Proof. intros H. unfold neg_part. apply Rmax_left. lra. Qed.

Lemma neg_part_pos (t : R) : 0 <= t -> neg_part t = 0.
Proof. intros H. unfold neg_part. apply Rmax_right. lra. Qed.

(** In any workspace the expression of [Proj1] sends a point to its mirror
    image across the horizontal axis. *)
Lemma image_Proj1 (w : workspace) (X : vec) :
  image_of w "[X(1);-X(2)]" X = Some (fst X, - snd X).
Proof.
  unfold image_of, value_of. rewrite read_Proj1. reflexivity.
Qed.

Section WithScript.

Variable imported : Meshes.Mesh.
Variable outer_faces : Meshes.Mesh -> list Face.
Variable normal : Meshes.Mesh -> Face -> vec.
Variable p : Params.

Let md := Hertz.md imported outer_faces normal p.
Let wheel := Hertz.wheel imported outer_faces normal.
Let foundation := Hertz.foundation imported outer_faces normal.
Let mim1 := Hertz.mim1 imported outer_faces normal p.

(** The terms are integrated over the contact region of the wheel. *)
Lemma contact_region_of_mim1 :
  mim_mesh mim1 = wheel
  /\ region wheel CONTACT_BOUND = fb2 imported outer_faces normal.
Proof. split; reflexivity. Qed.

(** C3.  The transformation [Proj1] of the model goes from the wheel mesh to
    the foundation mesh and is the reflection (x, y) -> (x, -y): whatever
    fields the unknowns interpolate to, hence at every Newton iteration, it
    pairs the point X with (X(1), -X(2)). *)
Theorem Proj1_is_reflection :
  lookup "Proj1" (transformations md)
  = Some (mk_transformation wheel foundation "[X(1);-X(2)]")
  /\ (forall (fs : fields) (X : vec),
        exists T, transformation (workspace_of md fs) "Proj1" = Some T
                  /\ T X = Some (fst X, - snd X))
  /\ (forall (unknowns : Type) (fields_at : unknowns -> fields)
             (newton_step : unknowns -> unknowns) (U0 : unknowns) (k : nat) (X : vec),
        exists T,
          transformation
            (workspace_of md (fields_at (Solver.after newton_step k U0))) "Proj1"
          = Some T
          /\ T X = Some (fst X, - snd X)).
Proof.
  split; [reflexivity |].
  assert (H : forall (fs : fields) (X : vec),
             exists T, transformation (workspace_of md fs) "Proj1" = Some T
                       /\ T X = Some (fst X, - snd X)).
  { intros fs0 X. eexists. split; [reflexivity |]. apply image_Proj1. }
  split; [exact H |].
  intros unknowns fields_at newton_step U0 k X. apply H.
Qed.

Variables u1 u2 du1 du2 : vec -> vec.
Variables lambda1 dlambda1 hT : vec -> R.

Let fs := contact_fields u1 u2 lambda1 du1 du2 dlambda1 hT.

(** C2.  The model holds, on the contact region of the wheel, a term whose
    integrand at X is lambda(X) (du1(X).n) - lambda(X) (du2(Pi(X)).n) with
    n = (0,1) and Pi(X) = (X(1), -X(2)): the part +lambda (du1.n) is what
    remains when the test function of u2 vanishes, the part
    -lambda (du2(Pi(X)).n) what remains when that of u1 vanishes. *)
Theorem displacement_residual (X : vec) :
  let n : vec := (0, 1) in
  let Pi : vec -> vec := fun Y => (fst Y, - snd Y) in
  let zero : vec -> vec := fun _ => (0, 0) in
  In (NonlinearTerm mim1 displacement_term CONTACT_BOUND) (bricks md)
  /\ integrand md fs displacement_term X
     = Some (Scalar (lambda1 X * dot (du1 X) n + - (lambda1 X * dot (du2 (Pi X)) n)))
  /\ (exists v,
        integrand md (contact_fields u1 u2 lambda1 du1 zero dlambda1 hT) displacement_term X
        = Some (Scalar v)
        /\ v = lambda1 X * dot (du1 X) n)
  /\ (exists v,
        integrand md (contact_fields u1 u2 lambda1 zero du2 dlambda1 hT) displacement_term X
        = Some (Scalar v)
        /\ v = - (lambda1 X * dot (du2 (Pi X)) n)).
Proof.
  intros n Pi zero.
  assert (Hval : forall d1 d2,
             integrand md (contact_fields u1 u2 lambda1 d1 d2 dlambda1 hT) displacement_term X
             = Some (Scalar (lambda1 X * dot (d1 X) n - lambda1 X * dot (d2 (Pi X)) n))).
  { intros d1 d2. unfold integrand, value_of. rewrite read_displacement_term.
    cbn. rewrite image_Proj1. reflexivity. }
  split; [| split; [| split]].
  - subst md. cbn. tauto.
  - subst fs. rewrite Hval. reflexivity.
  - eexists. split; [apply Hval |]. unfold dot, n, zero. cbn. ring.
  - eexists. split; [apply Hval |]. unfold dot, n, zero. cbn. ring.
Qed.

(** C1.  The model holds, on the contact region of the wheel, a term whose
    integrand at X is -(gamma0 h_T) (lambda(X) + neg_part(lambda_aug(X)))
    dlambda(X), where lambda_aug(X) = lambda(X) + (1/(gamma0 h_T)) g(X) and
    g(X) = ((X + u1(X)) - (Pi(X) + u2(Pi(X)))) . n with n = (0,1) and
    Pi(X) = (X(1), -X(2)). *)
Theorem multiplier_residual (X : vec) :
  let n : vec := (0, 1) in
  let Pi : vec -> vec := fun Y => (fst Y, - snd Y) in
  let g := dot (vsub (vadd X (u1 X)) (vadd (Pi X) (u2 (Pi X)))) n in
  let lambda_aug := lambda1 X + (1 / (gamma0 p * hT X)) * g in
  In (NonlinearTerm mim1 multiplier_term CONTACT_BOUND) (bricks md)
  /\ constant (workspace_of md fs) "gamma0" = Some (Scalar (gamma0 p))
  /\ integrand md fs multiplier_term X
     = Some (Scalar (- (gamma0 p * hT X) * (lambda1 X + neg_part lambda_aug) * dlambda1 X)).
Proof.
  intros n Pi g lambda_aug.
  split; [| split].
  - subst md. cbn. tauto.
  - reflexivity.
  - unfold integrand, value_of. rewrite read_multiplier_term.
    subst fs. cbn. rewrite !image_Proj1. cbn.
    do 2 f_equal. f_equal. f_equal. f_equal. f_equal.
    subst lambda_aug g. f_equal. f_equal.
    unfold dot, vsub, vadd, n, Pi. cbn. ring.
Qed.

End WithScript.

End Contact.

(** ** Boundary selection *)

Module BoundaryFacts.
Import Meshes Plane Boundary.

Local Open Scope R_scope.

Lemma In_outer_faces_with_direction
  (faces : list Face) (normal : Face -> vec) (v : vec) (tol : R) (f : Face) :
  In f (outer_faces_with_direction faces normal v tol)
  <-> In f faces /\ angle (normal f) v <= tol.
Proof.
  unfold outer_faces_with_direction, within. rewrite filter_In.
  destruct (Rle_dec (angle (normal f) v) tol) as [Hle | Hgt].
  - tauto.
  - split; intros [Hin H]; [discriminate | contradiction].
Qed.

(** The arc cosine decreases: comparing angles in [0, PI] is comparing
    cosines the other way round. *)
Lemma acos_le_iff (x t : R) :
  -1 <= x <= 1 -> 0 <= t <= PI -> (acos x <= t <-> cos t <= x).
Proof.
  intros Hx Ht.
  pose proof (acos_bound x) as Hb.
  pose proof (cos_acos x Hx) as Hc.
  split; intros H.
  - rewrite <- Hc. apply cos_decr_1; lra.
  - rewrite <- Hc in H. apply cos_decr_0; lra.
Qed.

Lemma norm_unit (n : vec) : dot n n = 1 -> norm n = 1.
Proof. intros H. unfold norm. rewrite H. apply sqrt_1. Qed.

Lemma dot_unit_bound (n v : vec) :
  dot n n = 1 -> dot v v = 1 -> -1 <= dot n v <= 1.
Proof.
  destruct n as [a b], v as [c d]. unfold dot. simpl. intros Hn Hv.
  pose proof (Rle_0_sqr (a - c)) as H2. unfold Rsqr in H2.
  pose proof (Rle_0_sqr (b - d)) as H3. unfold Rsqr in H3.
  pose proof (Rle_0_sqr (a + c)) as H4. unfold Rsqr in H4.
  pose proof (Rle_0_sqr (b + d)) as H5. unfold Rsqr in H5.
  split; lra.
Qed.

Lemma angle_unit (n v : vec) :
  dot n n = 1 -> dot v v = 1 -> angle n v = acos (dot n v).
Proof.
  intros Hn Hv. unfold angle. rewrite (norm_unit _ Hn), (norm_unit _ Hv).
  f_equal. field.
Qed.

Lemma angle_le_iff (n v : vec) (t : R) :
  dot n n = 1 -> dot v v = 1 -> 0 <= t <= PI ->
  (angle n v <= t <-> cos t <= dot n v).
Proof.
  intros Hn Hv Ht. rewrite (angle_unit _ _ Hn Hv).
  apply acos_le_iff; [now apply dot_unit_bound | assumption].
Qed.

(** A hundredth of a radian is well inside the eighth of a turn. *)
Lemma cos_small : / sqrt 2 < cos (1 / 100).
Proof.
  pose proof PI2_1 as Hpi.
  replace (/ sqrt 2) with (cos (PI / 4))
    by (rewrite cos_PI4; field; apply Rgt_not_eq, Rlt_gt, Rlt_sqrt2_0).
  apply cos_decreasing_1; lra.
Qed.

Lemma cos_hundredth_upper : cos (1 / 100) <= 62499 / 62501.
Proof.
  pose proof PI2_1 as Hpi.
  assert (Hlo : - PI / 2 <= 1 / 100) by lra.
  assert (Hhi : 1 / 100 <= PI / 2) by lra.
  destruct (cos_bound (1 / 100) 0 Hlo Hhi) as [_ H].
  unfold cos_approx, cos_term in H. simpl in H.
  lra.
Qed.

(** The double [np.pi] is below pi, by less than a millionth. *)
Lemma np_pi_lt_PI : Hertz.np_pi < PI.
Proof.
  destruct (PI_2_3_7_ineq 8) as [H _].
  unfold Hertz.np_pi.
  unfold PI_2_3_7_tg, tg_alt, Ratan_seq in H. simpl in H.
  lra.
Qed.

Lemma PI_lt_np_pi_plus : PI < Hertz.np_pi + 1 / 1000000.
Proof.
  destruct (PI_2_3_7_ineq 3) as [_ H].
  unfold Hertz.np_pi.
  unfold PI_2_3_7_tg, tg_alt, Ratan_seq in H. simpl in H.
  lra.
Qed.

Lemma half_turn_tolerance : 0 <= Hertz.np_pi / 2 <= PI.
Proof. pose proof np_pi_lt_PI. unfold Hertz.np_pi in *. lra. Qed.

(** The cosine of the tolerance [np.pi / 2.0] is positive and tiny. *)
Lemma cos_half_np_pi : 0 < cos (Hertz.np_pi / 2) < 1 / 1000000.
Proof.
  pose proof np_pi_lt_PI as Hlo. pose proof PI_lt_np_pi_plus as Hhi.
  pose proof PI_RGT_0 as Hpi.
  assert (Hnp : 3 < Hertz.np_pi) by (unfold Hertz.np_pi; lra).
  replace (Hertz.np_pi / 2) with (PI / 2 - (PI / 2 - Hertz.np_pi / 2)) by field.
  rewrite cos_shift. split.
  - apply sin_gt_0; lra.
  - apply Rlt_trans with (PI / 2 - Hertz.np_pi / 2); [apply sin_lt_x |]; lra.
Qed.

Lemma small_tolerance : 0 <= 1 / 100 <= PI.
Proof. pose proof PI2_1. lra. Qed.

(** Within the tolerance [np.pi / 2.0] of the downward, resp. upward,
    direction. *)
Lemma downward_iff (n : vec) :
  dot n n = 1 ->
  (angle n (0, -1) <= Hertz.np_pi / 2 <-> snd n <= - cos (Hertz.np_pi / 2)).
Proof.
  intros Hn. rewrite (angle_le_iff n (0, -1)); [| assumption | | apply half_turn_tolerance].
  - unfold dot. simpl. split; intros H; lra.
  - unfold dot. simpl. ring.
Qed.

Lemma upward_iff (n : vec) :
  dot n n = 1 ->
  (angle n (0, 1) <= Hertz.np_pi / 2 <-> cos (Hertz.np_pi / 2) <= snd n).
Proof.
  intros Hn. rewrite (angle_le_iff n (0, 1)); [| assumption | | apply half_turn_tolerance].
  - unfold dot. simpl. split; intros H; lra.
  - unfold dot. simpl. ring.
Qed.

(** Within a hundredth of a radian of the downward, resp. leftward,
    direction. *)
Lemma nearly_downward_iff (n : vec) :
  dot n n = 1 -> (angle n (0, -1) <= 1 / 100 <-> cos (1 / 100) <= - snd n).
Proof.
  intros Hn. rewrite (angle_le_iff n (0, -1)); [| assumption | | apply small_tolerance].
  - unfold dot. simpl. split; intros H; lra.
  - unfold dot. simpl. ring.
Qed.

Lemma nearly_leftward_iff (n : vec) :
  dot n n = 1 -> (angle n (-1, 0) <= 1 / 100 <-> cos (1 / 100) <= - fst n).
Proof.
  intros Hn. rewrite (angle_le_iff n (-1, 0)); [| assumption | | apply small_tolerance].
  - unfold dot. simpl. split; intros H; lra.
  - unfold dot. simpl. ring.
Qed.

(** No unit vector is that close to both the downward and the leftward
    directions. *)
Lemma not_down_and_left (n : vec) :
  dot n n = 1 -> cos (1 / 100) <= - snd n -> cos (1 / 100) <= - fst n -> False.
Proof.
  destruct n as [a b]. unfold dot. simpl. intros Hn Hb Ha.
  pose proof cos_small as Hc.
  pose proof Rlt_sqrt2_0 as Hs.
  assert (Hs2 : / sqrt 2 * / sqrt 2 = / 2).
  { rewrite <- Rinv_mult. rewrite sqrt_sqrt by lra. reflexivity. }
  assert (Hpos : 0 < / sqrt 2) by (apply Rinv_0_lt_compat; exact Hs).
  nra.
Qed.

End BoundaryFacts.

Module BoundarySpec.
Import Meshes Plane Boundary BoundaryFacts Hertz Samples.

Local Open Scope R_scope.

(** C5.  The selection keeps a boundary face exactly when the angle between
    its outward normal and the direction is at most the tolerance.  A face
    whose angle equals the tolerance is kept; a face at angle PI/2 is kept
    with the tolerance PI/2 and dropped with any smaller one. *)
Theorem outer_faces_with_direction_closed
  (faces : list Face) (normal : Face -> vec) (v : vec) (tol : R) (f : Face) :
  (In f (outer_faces_with_direction faces normal v tol)
   <-> In f faces /\ angle (normal f) v <= tol)
  /\ (In f faces -> angle (normal f) v = tol ->
      In f (outer_faces_with_direction faces normal v tol))
  /\ (In f faces -> angle (normal f) v = PI / 2 ->
      In f (outer_faces_with_direction faces normal v (PI / 2))
      /\ forall t, t < PI / 2 -> ~ In f (outer_faces_with_direction faces normal v t)).
Proof.
  split; [apply In_outer_faces_with_direction |]. split.
  - intros Hin Heq. apply In_outer_faces_with_direction. split; [assumption | lra].
  - intros Hin Heq. split.
    + apply In_outer_faces_with_direction. split; [assumption | lra].
    + intros t Ht Hsel. apply In_outer_faces_with_direction in Hsel. lra.
Qed.

Lemma wheel_faces_eq : wheel_faces = [(0, 0); (0, 1); (0, 2)]%nat.
Proof. vm_compute. reflexivity. Qed.

Lemma vertical_side_angle_down : angle (wheel_normal (0, 1)%nat) (0, -1) = PI / 2.
Proof.
  unfold wheel_normal, triangle_normal. simpl.
  rewrite angle_unit; unfold dot; simpl; [| ring | ring].
  replace (-1 * 0 + 0 * -1) with 0 by ring. apply acos_0.
Qed.

Lemma vertical_side_angle_up : angle (wheel_normal (0, 1)%nat) (0, 1) = PI / 2.
Proof.
  unfold wheel_normal, triangle_normal. simpl.
  rewrite angle_unit; unfold dot; simpl; [| ring | ring].
  replace (-1 * 0 + 0 * 1) with 0 by ring. apply acos_0.
Qed.

Lemma vertical_side_angle_left : angle (wheel_normal (0, 1)%nat) (-1, 0) = 0.
Proof.
  unfold wheel_normal, triangle_normal. simpl.
  rewrite angle_unit; unfold dot; simpl; [| ring | ring].
  replace (-1 * -1 + 0 * 0) with 1 by ring. apply acos_1.
Qed.

(** The vertical side of the triangle, whose normal is at PI/2 of the
    downward direction, is selected with the tolerance PI/2 and with no
    smaller one. *)
Lemma outer_faces_with_direction_closed_witness :
  In (0, 1)%nat (outer_faces_with_direction wheel_faces wheel_normal (0, -1) (PI / 2))
  /\ forall t, t < PI / 2 ->
       ~ In (0, 1)%nat (outer_faces_with_direction wheel_faces wheel_normal (0, -1) t).
Proof.
  apply (outer_faces_with_direction_closed
           wheel_faces wheel_normal (0, -1) (PI / 2) (0, 1)%nat).
  - rewrite wheel_faces_eq. simpl. tauto.
  - exact vertical_side_angle_down.
Defined.

End BoundarySpec.

Module Regions.
Import Meshes Plane Boundary BoundaryFacts BoundarySpec Hertz Samples.

Local Open Scope R_scope.

Section WithMeshes.

Variable imported : Meshes.Mesh.
Variable outer_faces : Meshes.Mesh -> list Face.
Variable normal : Meshes.Mesh -> Face -> vec.

Let m1 := Split.mesh1 imported.
Let m2 := Split.mesh2 imported.
Let wheel := Hertz.wheel imported outer_faces normal.
Let foundation := Hertz.foundation imported outer_faces normal.

(** The regions of the two meshes are the selections of the script. *)
Lemma regions_of_wheel :
  region wheel CONTACT_BOUND = fb2 imported outer_faces normal
  /\ region wheel TOP_BOUND = fb4 imported outer_faces normal
  /\ region wheel LEFT_BOUND = fb6 imported outer_faces normal.
Proof. repeat split. Qed.

Lemma regions_of_foundation :
  region foundation BOTTOM_BOUND = fb3 imported outer_faces normal
  /\ region foundation CONTACT_BOUND = fb5 imported outer_faces normal
  /\ region foundation LEFT_BOUND = fb7 imported outer_faces normal.
Proof. repeat split. Qed.

Hypothesis unit1 : forall f, In f (outer_faces m1) -> dot (normal m1 f) (normal m1 f) = 1.
Hypothesis unit2 : forall f, In f (outer_faces m2) -> dot (normal m2 f) (normal m2 f) = 1.

Lemma In_wheel_contact (f : Face) :
  In f (region wheel CONTACT_BOUND)
  <-> In f (outer_faces m1) /\ snd (normal m1 f) <= - cos (np_pi / 2).
Proof.
  change (region wheel CONTACT_BOUND)
    with (outer_faces_with_direction (outer_faces m1) (normal m1) (0, -1) (np_pi / 2)).
  rewrite In_outer_faces_with_direction.
  split; intros [Hin H]; (split; [assumption |]);
    apply (downward_iff _ (unit1 f Hin)); assumption.
Qed.

Lemma In_wheel_top (f : Face) :
  In f (region wheel TOP_BOUND)
  <-> In f (outer_faces m1) /\ cos (np_pi / 2) <= snd (normal m1 f).
Proof.
  change (region wheel TOP_BOUND)
    with (outer_faces_with_direction (outer_faces m1) (normal m1) (0, 1) (np_pi / 2)).
  rewrite In_outer_faces_with_direction.
  split; intros [Hin H]; (split; [assumption |]);
    apply (upward_iff _ (unit1 f Hin)); assumption.
Qed.

Lemma In_wheel_left (f : Face) :
  In f (region wheel LEFT_BOUND)
  <-> In f (outer_faces m1) /\ cos (1 / 100) <= - fst (normal m1 f).
Proof.
  change (region wheel LEFT_BOUND)
    with (outer_faces_with_direction (outer_faces m1) (normal m1) (-1, 0) (1 / 100)).
  rewrite In_outer_faces_with_direction.
  split; intros [Hin H]; (split; [assumption |]);
    apply (nearly_leftward_iff _ (unit1 f Hin)); assumption.
Qed.

Lemma In_foundation_bottom (f : Face) :
  In f (region foundation BOTTOM_BOUND)
  <-> In f (outer_faces m2) /\ cos (1 / 100) <= - snd (normal m2 f).
Proof.
  change (region foundation BOTTOM_BOUND)
    with (outer_faces_with_direction (outer_faces m2) (normal m2) (0, -1) (1 / 100)).
  rewrite In_outer_faces_with_direction.
  split; intros [Hin H]; (split; [assumption |]);
    apply (nearly_downward_iff _ (unit2 f Hin)); assumption.
Qed.

Lemma In_foundation_contact (f : Face) :
  In f (region foundation CONTACT_BOUND)
  <-> In f (outer_faces m2) /\ cos (np_pi / 2) <= snd (normal m2 f).
Proof.
  change (region foundation CONTACT_BOUND)
    with (outer_faces_with_direction (outer_faces m2) (normal m2) (0, 1) (np_pi / 2)).
  rewrite In_outer_faces_with_direction.
  split; intros [Hin H]; (split; [assumption |]);
    apply (upward_iff _ (unit2 f Hin)); assumption.
Qed.

Lemma In_foundation_left (f : Face) :
  In f (region foundation LEFT_BOUND)
  <-> In f (outer_faces m2) /\ cos (1 / 100) <= - fst (normal m2 f).
Proof.
  change (region foundation LEFT_BOUND)
    with (outer_faces_with_direction (outer_faces m2) (normal m2) (-1, 0) (1 / 100)).
  rewrite In_outer_faces_with_direction.
  split; intros [Hin H]; (split; [assumption |]);
    apply (nearly_leftward_iff _ (unit2 f Hin)); assumption.
Qed.

End WithMeshes.

(** Two regions are disjoint when no face is in both. *)
Lemma disjoint_pair (m : Meshes.Mesh) (a b : Z) :
  (forall f, In f (region m a) -> In f (region m b) -> False) ->
  regions_disjoint m [a; b].
Proof.
  intros H x y f Hx Hy Hxy [Hfx Hfy]. simpl in Hx, Hy.
  destruct Hx as [Hx | [Hx | []]], Hy as [Hy | [Hy | []]]; subst x y.
  - apply Hxy. reflexivity.
  - exact (H f Hfx Hfy).
  - exact (H f Hfy Hfx).
  - apply Hxy. reflexivity.
Qed.


(** The triangle sample: on its wheel the vertical side, whose outward
    normal is (-1, 0), is in the left region only, for the angle PI/2 of its
    normal to the vertical exceeds the tolerance np.pi / 2.0. *)
Lemma vertical_side_regions :
  let wheel := Hertz.wheel triangle triangle_faces triangle_normal in
  In (0, 1)%nat (region wheel LEFT_BOUND)
  /\ ~ In (0, 1)%nat (region wheel CONTACT_BOUND)
  /\ ~ In (0, 1)%nat (region wheel TOP_BOUND).
Proof.
  intros wheel.
  assert (Hin : In (0, 1)%nat wheel_faces) by (rewrite wheel_faces_eq; simpl; tauto).
  pose proof np_pi_lt_PI as Hpi.
  split; [| split].
  - change (In (0, 1)%nat
              (outer_faces_with_direction wheel_faces wheel_normal (-1, 0) (1 / 100))).
    apply In_outer_faces_with_direction. split; [exact Hin |].
    rewrite vertical_side_angle_left. lra.
  - change (~ In (0, 1)%nat
                (outer_faces_with_direction wheel_faces wheel_normal (0, -1) (np_pi / 2))).
    intros H. apply In_outer_faces_with_direction in H. destruct H as [_ H].
    rewrite vertical_side_angle_down in H. lra.
  - change (~ In (0, 1)%nat
                (outer_faces_with_direction wheel_faces wheel_normal (0, 1) (np_pi / 2))).
    intros H. apply In_outer_faces_with_direction in H. destruct H as [_ H].
    rewrite vertical_side_angle_up in H. lra.
Qed.

(** On the wheel of the leaning sample the left side, whose outward normal
    points slightly downwards, is in the contact and in the left region. *)
Lemma leaning_side_regions :
  let wheel := Hertz.wheel leaning triangle_faces leaning_normal in
  In (0, 1)%nat (region wheel CONTACT_BOUND)
  /\ In (0, 1)%nat (region wheel LEFT_BOUND).
Proof.
  intros wheel.
  assert (Hin : In (0, 1)%nat (triangle_faces (Split.mesh1 leaning)))
    by (vm_compute; tauto).
  assert (Hunit : dot (leaning_normal (Split.mesh1 leaning) (0, 1)%nat)
                      (leaning_normal (Split.mesh1 leaning) (0, 1)%nat) = 1)
    by (unfold leaning_normal, dot; simpl; field).
  split.
  - change (In (0, 1)%nat
              (outer_faces_with_direction (triangle_faces (Split.mesh1 leaning))
                 (leaning_normal (Split.mesh1 leaning)) (0, -1) (np_pi / 2))).
    apply In_outer_faces_with_direction. split; [exact Hin |].
    apply (downward_iff _ Hunit). unfold leaning_normal. simpl.
    pose proof cos_half_np_pi. lra.
  - change (In (0, 1)%nat
              (outer_faces_with_direction (triangle_faces (Split.mesh1 leaning))
                 (leaning_normal (Split.mesh1 leaning)) (-1, 0) (1 / 100))).
    apply In_outer_faces_with_direction. split; [exact Hin |].
    apply (nearly_leftward_iff _ Hunit). unfold leaning_normal. simpl.
    pose proof cos_hundredth_upper. lra.
Qed.


(** The sample of two bodies: the faces of each half and their unit
    normals. *)
Lemma body_faces1 : body_faces (Split.mesh1 two_bodies) = [(0, 0); (0, 1); (0, 2)]%nat.
Proof. vm_compute. reflexivity. Qed.

Lemma body_faces2 : body_faces (Split.mesh2 two_bodies) = [(1, 0); (1, 1); (1, 2)]%nat.
Proof. vm_compute. reflexivity. Qed.

Lemma two_bodies_unit1 :
  forall f, In f (body_faces (Split.mesh1 two_bodies)) ->
            dot (body_normal (Split.mesh1 two_bodies) f)
                (body_normal (Split.mesh1 two_bodies) f) = 1.
Proof.
  intros f Hf. rewrite body_faces1 in Hf.
  simpl in Hf. destruct Hf as [Hf | [Hf | [Hf | []]]]; subst f;
    unfold body_normal, dot; simpl; field.
Defined.

Lemma two_bodies_unit2 :
  forall f, In f (body_faces (Split.mesh2 two_bodies)) ->
            dot (body_normal (Split.mesh2 two_bodies) f)
                (body_normal (Split.mesh2 two_bodies) f) = 1.
Proof.
  intros f Hf. rewrite body_faces2 in Hf.
  simpl in Hf. destruct Hf as [Hf | [Hf | [Hf | []]]]; subst f;
    unfold body_normal, dot; simpl; field.
Defined.

(** On the foundation of the sample the bottom side is in the bottom region
    and the leaning left side in the left region. *)
Lemma foundation_sides :
  let foundation := Hertz.foundation two_bodies body_faces body_normal in
  In (1, 0)%nat (region foundation BOTTOM_BOUND)
  /\ In (1, 1)%nat (region foundation LEFT_BOUND).
Proof.
  intros foundation. split.
  - apply (In_foundation_bottom two_bodies body_faces body_normal two_bodies_unit2).
    split; [rewrite body_faces2; simpl; tauto |].
    unfold body_normal. simpl.
    pose proof (COS_bound (1 / 100)). lra.
  - apply (In_foundation_left two_bodies body_faces body_normal two_bodies_unit2).
    split; [rewrite body_faces2; simpl; tauto |].
    unfold body_normal. simpl.
    pose proof cos_hundredth_upper. lra.
Qed.


End Regions.

(** ** The Newton iterations *)

Module SolverFacts.
Import Solver.

Local Open Scope R_scope.

Section Newton.

Variable unknowns : Type.
Variable residual_norm : unknowns -> R.
Variable newton_step : unknowns -> unknowns.

Lemma after_S (k : nat) (U : unknowns) :
  after newton_step (S k) U = after newton_step k (newton_step U).
Proof. reflexivity. Qed.

(** The loop stops at the first state whose residual is below the
    tolerance, after at most [left] updates; otherwise it has made [left]
    updates and no state on the way was below the tolerance. *)
Lemma iterate_spec (tol : R) (left nbit : nat) (U : unknowns) :
  match iterate residual_norm newton_step tol left nbit U with
  | Converged V n =>
      exists k, (k <= left)%nat /\ n = (nbit + k)%nat
                /\ V = after newton_step k U
                /\ residual_norm V < tol
                /\ forall j, (j < k)%nat ->
                             ~ residual_norm (after newton_step j U) < tol
  | NonConvergence V n =>
      n = (nbit + left)%nat
      /\ V = after newton_step left U
      /\ forall j, (j <= left)%nat -> ~ residual_norm (after newton_step j U) < tol
  end.
Proof.
  revert nbit U. induction left as [| left IH]; intros nbit U; simpl.
  - destruct (Rlt_dec (residual_norm U) tol) as [Hlt | Hge].
    + exists 0%nat. repeat split; try assumption; try lia.
    + repeat split; try lia.
      intros j Hj. replace j with 0%nat by lia. exact Hge.
  - destruct (Rlt_dec (residual_norm U) tol) as [Hlt | Hge].
    + exists 0%nat. repeat split; try assumption; try lia.
    + specialize (IH (S nbit) (newton_step U)).
      destruct (iterate residual_norm newton_step tol left (S nbit) (newton_step U))
        as [V n | V n].
      * destruct IH as [k [Hk [Hn [HV [Hres Hbefore]]]]].
        exists (S k). repeat split; try assumption; try lia.
        intros j Hj. destruct j as [| j]; [exact Hge |].
        rewrite after_S. apply Hbefore. lia.
      * destruct IH as [Hn [HV Hall]].
        repeat split; try assumption; try lia.
        intros j Hj. destruct j as [| j]; [exact Hge |].
        rewrite after_S. apply Hall. lia.
Qed.

End Newton.

End SolverFacts.

Module SolveSpec.
Import Solver SolverFacts Hertz.

Local Open Scope R_scope.

(** A system the iterations cannot improve: the state counts the updates
    and the norm of the residual stays at 1.  The call gives up after 100
    updates. *)
Example stuck_solve :
  Hertz.solve Samples.triangle Samples.triangle_faces Samples.triangle_normal
              (fun _ => O) (fun _ _ => 1) (fun _ U => S U) script_params
  = NonConvergence 100%nat 100%nat.
Proof.
  unfold solve, Solver.standard_solve, solve_options. simpl max_res. simpl max_iter.
  generalize (md Samples.triangle Samples.triangle_faces Samples.triangle_normal
                 script_params).
  intros m.
  assert (H : forall left nbit U,
             iterate (fun _ : nat => 1) S (1 / 1000000000) left nbit U
             = NonConvergence (left + U)%nat (nbit + left)%nat).
  { induction left as [| left IH]; intros nbit U; simpl;
      destruct (Rlt_dec 1 (1 / 1000000000)) as [Hlt | Hge]; try lra.
    - f_equal. lia.
    - rewrite IH. f_equal; lia. }
  rewrite H. reflexivity.
Qed.

Section WithScript.

Variable imported : Meshes.Mesh.
Variable outer_faces : Meshes.Mesh -> list Meshes.Face.
Variable normal : Meshes.Mesh -> Meshes.Face -> Plane.vec.
Variable unknowns : Type.
Variable initial : Models.Model -> unknowns.
Variable residual_norm : Models.Model -> unknowns -> R.
Variable newton_step : Models.Model -> unknowns -> unknowns.
Variable variable : unknowns -> string -> list R.
Variable von_mises : Models.Model -> unknowns -> VonMises -> list R.
Variable p : Params.

Let md := Hertz.md imported outer_faces normal p.
Let U0 := initial md.
Let state (k : nat) := after (newton_step md) k U0.
Let res (k : nat) := residual_norm md (state k).

(** The script exports the state the solve call leaves, converged or not. *)
Lemma run_exports_any_outcome :
  Hertz.run imported outer_faces normal initial residual_norm newton_step
            variable von_mises p
  = match Hertz.solve imported outer_faces normal initial residual_norm newton_step p with
    | Converged U _ => export imported outer_faces normal variable von_mises p U
    | NonConvergence U _ => export imported outer_faces normal variable von_mises p U
    end.
Proof.
  unfold run, solved.
  destruct (Hertz.solve imported outer_faces normal initial residual_norm newton_step p);
    reflexivity.
Qed.

(** C4.  The solve call of the script has the tolerance 1e-9 and at most
    100 iterations.  It ends with the first state whose residual norm is
    below the tolerance, reached within 100 updates; if no state up to the
    hundredth update is below the tolerance, the call ends with the
    non-convergence outcome, which is distinct from the converged one. *)
Theorem solve_stops_or_fails :
  max_res solve_options = 1 / 1000000000
  /\ max_iter solve_options = 100%nat
  /\ match Hertz.solve imported outer_faces normal initial residual_norm newton_step p with
     | Converged U nbit =>
         (nbit <= 100)%nat /\ U = state nbit
         /\ res nbit < 1 / 1000000000
         /\ (forall j, (j < nbit)%nat -> ~ res j < 1 / 1000000000)
     | NonConvergence U nbit =>
         nbit = 100%nat /\ U = state 100
         /\ (forall j, (j <= 100)%nat -> ~ res j < 1 / 1000000000)
     end
  /\ ((forall j, (j <= 100)%nat -> ~ res j < 1 / 1000000000)
      <-> Hertz.solve imported outer_faces normal initial residual_norm newton_step p
          = NonConvergence (state 100) 100%nat).
Proof.
  split; [reflexivity |]. split; [reflexivity |].
  pose proof (iterate_spec _ (residual_norm md) (newton_step md)
                (1 / 1000000000) 100 0 U0) as H.
  change (iterate (residual_norm md) (newton_step md) (1 / 1000000000) 100 0 U0)
    with (Hertz.solve imported outer_faces normal initial residual_norm newton_step p)
    in H.
  destruct (Hertz.solve imported outer_faces normal initial residual_norm newton_step p)
    as [U nbit | U nbit].
  - destruct H as [k [Hk [Hn [HU [Hres Hbefore]]]]]. simpl in Hn. subst nbit.
    assert (Hk' : res k < 1 / 1000000000)
      by (unfold res, state; rewrite <- HU; exact Hres).
    split; [repeat split; assumption |].
    split; [| discriminate].
    intros Hall. exfalso. exact (Hall k Hk Hk').
  - destruct H as [Hn [HU Hall]]. simpl in Hn. subst nbit.
    split; [repeat split; assumption |].
    split; [| intros _; exact Hall].
    intros _. rewrite HU. reflexivity.
Qed.

End WithScript.

End SolveSpec.

(** ** What the script puts in the model *)

Module ModelSpec.
Import Meshes Plane Fem Models Hertz.

Local Open Scope R_scope.
Local Open Scope string_scope.

(** The coefficients for the values of the script: E = 200000, nu = 0.3. *)
Example clambda_script : clambda script_params = 1500000 / 13.
Proof. unfold clambda, script_params. simpl. field. Qed.

Example cmu_script : cmu script_params = 1000000 / 13.
Proof. unfold cmu, script_params. simpl. field. Qed.

Example clambdastar_script : clambdastar script_params = 6000000 / 91.
Proof.
  unfold clambdastar. rewrite clambda_script, cmu_script. field.
Qed.

Section WithScript.

Variable imported : Meshes.Mesh.
Variable outer_faces : Meshes.Mesh -> list Face.
Variable normal : Meshes.Mesh -> Face -> vec.
Variable p : Params.

Let md := Hertz.md imported outer_faces normal p.
Let wheel := Hertz.wheel imported outer_faces normal.
Let foundation := Hertz.foundation imported outer_faces normal.
Let mim1 := Hertz.mim1 imported outer_faces normal p.
Let mim2 := Hertz.mim2 imported outer_faces normal p.
Let mfu1 := Hertz.mfu1 imported outer_faces normal p.
Let mfu2 := Hertz.mfu2 imported outer_faces normal p.
Let mflambda_C := Hertz.mflambda_C imported outer_faces normal p.
Let vm1 := Hertz.vm1 imported outer_faces normal p.
Let vm2 := Hertz.vm2 imported outer_faces normal p.

(** C7.  With lambda = E nu / ((1 + nu)(1 - 2 nu)) and mu = E / (2 (1 + nu)),
    the model holds mu under the name cmu and the plane-stress coefficient
    2 lambda mu / (lambda + 2 mu) under the name clambdastar; lambda itself
    is not a data of the model.  The displacements have two components, the
    two elasticity bricks of the model take clambdastar and cmu, and so do
    the two Von Mises computations. *)
Theorem elasticity_coefficients :
  let lambda := E p * nu p / ((1 + nu p) * (1 - 2 * nu p)) in
  let mu := E p / (2 * (1 + nu p)) in
  clambda p = lambda
  /\ cmu p = mu
  /\ lookup "cmu" (data md) = Some (Array1 [mu])
  /\ lookup "clambdastar" (data md)
     = Some (Array1 [2 * lambda * mu / (lambda + 2 * mu)])
  /\ lookup "clambda" (data md) = None
  /\ mf_qdim mfu1 = 2%Z /\ mf_qdim mfu2 = 2%Z
  /\ elasticity_bricks md
     = [IsotropicLinearizedElasticity mim1 "u1" "clambdastar" "cmu";
        IsotropicLinearizedElasticity mim2 "u2" "clambdastar" "cmu"]
  /\ (vm_varname vm1, vm_dataname_lambda vm1, vm_dataname_mu vm1)
     = ("u1", "clambdastar", "cmu")
  /\ (vm_varname vm2, vm_dataname_lambda vm2, vm_dataname_mu vm2)
     = ("u2", "clambdastar", "cmu").
Proof.
  intros lambda mu. repeat split.
Qed.

Variable basic_dof : MeshFem -> list nat.
Variable dof_on_face : MeshFem -> nat -> Face -> bool.

(** C8.  The multiplier lambda1 is a filtered variable on the contact region
    of the wheel mesh, over a scalar finite element space of degree
    elements_degree - 1; the displacements are over spaces of degree
    elements_degree.  A degree of freedom of that space belongs to lambda1
    exactly when it lies on a face of the contact region. *)
Theorem multiplier_field :
  lookup "lambda1" (variables md) = Some (FilteredFemVariable mflambda_C CONTACT_BOUND)
  /\ mf_mesh mflambda_C = wheel
  /\ mf_qdim mflambda_C = 1%Z
  /\ degree mflambda_C = Some (elements_degree p - 1)%Z
  /\ lookup "u1" (variables md) = Some (FemVariable mfu1)
  /\ lookup "u2" (variables md) = Some (FemVariable mfu2)
  /\ degree mfu1 = Some (elements_degree p)
  /\ degree mfu2 = Some (elements_degree p)
  /\ region wheel CONTACT_BOUND = fb2 imported outer_faces normal
  /\ forall i,
       In i (dofs_of basic_dof dof_on_face (FilteredFemVariable mflambda_C CONTACT_BOUND))
       <-> In i (basic_dof mflambda_C)
           /\ exists f, In f (region wheel CONTACT_BOUND)
                        /\ dof_on_face mflambda_C i f = true.
Proof.
  do 9 (split; [reflexivity |]).
  intros i. unfold dofs_of. rewrite filter_In, existsb_exists. reflexivity.
Qed.

End WithScript.

(** ** The parameter the script never reads *)

Section Runs.

Variable imported : Meshes.Mesh.
Variable outer_faces : Meshes.Mesh -> list Face.
Variable normal : Meshes.Mesh -> Face -> vec.
Variable unknowns : Type.
Variable initial : Models.Model -> unknowns.
Variable residual_norm : Models.Model -> unknowns -> R.
Variable newton_step : Models.Model -> unknowns -> unknowns.
Variable variable : unknowns -> string -> list R.
Variable von_mises : Models.Model -> unknowns -> VonMises -> list R.

(** C9.  Two runs that differ only in the value of applied_force build the
    same model, hence assemble the same residual and the same updates, solve
    to the same outcome and export the same displacements and Von Mises
    stresses. *)
Theorem applied_force_unused (p : Params) (a : R) :
  let q := set_applied_force a p in
  Hertz.md imported outer_faces normal q = Hertz.md imported outer_faces normal p
  /\ residual_norm (Hertz.md imported outer_faces normal q)
     = residual_norm (Hertz.md imported outer_faces normal p)
  /\ newton_step (Hertz.md imported outer_faces normal q)
     = newton_step (Hertz.md imported outer_faces normal p)
  /\ Hertz.solve imported outer_faces normal initial residual_norm newton_step q
     = Hertz.solve imported outer_faces normal initial residual_norm newton_step p
  /\ (forall U, export imported outer_faces normal variable von_mises q U
                = export imported outer_faces normal variable von_mises p U)
  /\ Hertz.run imported outer_faces normal initial residual_norm newton_step
               variable von_mises q
     = Hertz.run imported outer_faces normal initial residual_norm newton_step
                 variable von_mises p.
Proof.
  intros q. repeat split.
Qed.

End Runs.

End ModelSpec.

(** ** What the contact terms enforce *)

Module ContactLaws.
Import Meshes Plane Gwfl Assembly Fem Models Hertz Contact Gap.

Local Open Scope R_scope.
Local Open Scope string_scope.

(** The equation l + neg_part (l + a g) = 0, for a positive weight a, says
    that l and g have opposite signs and that one of them vanishes. *)
Lemma neg_part_equation (l g a : R) :
  0 < a ->
  (l + neg_part (l + a * g) = 0 <-> l <= 0 /\ 0 <= g /\ l * g = 0).
Proof.
  intros Ha. unfold neg_part.
  destruct (Rle_dec (l + a * g) 0) as [Hle | Hgt].
  - rewrite Rmax_left by lra. split.
    + intros H. assert (Hag : a * g = 0) by lra.
      assert (Hg : g = 0) by (apply Rmult_integral in Hag; destruct Hag; lra).
      subst g. split; [lra |]. split; [lra | ring].
    + intros [Hl [Hg Hlg]].
      assert (Hag : 0 <= a * g) by (apply Rmult_le_pos; lra).
      destruct (Req_dec l 0) as [Hz | Hnz]; [lra |].
      assert (Hg0 : g = 0) by (apply Rmult_integral in Hlg; tauto).
      subst g. lra.
  - rewrite Rmax_right by lra. split.
    + intros H. assert (Hl : l = 0) by lra. subst l.
      split; [lra |]. split; [| ring].
      destruct (Rle_dec 0 g) as [Hg | Hg]; [exact Hg |].
      exfalso. assert (Hag : a * g < 0) by (apply Rmult_pos_neg; lra). lra.
    + intros [Hl [Hg Hlg]].
      destruct (Req_dec l 0) as [Hz | Hnz]; [lra |].
      assert (Hg0 : g = 0) by (apply Rmult_integral in Hlg; tauto).
      subst g. lra.
Qed.

Section WithScript.

Variable imported : Meshes.Mesh.
Variable outer_faces : Meshes.Mesh -> list Face.
Variable normal : Meshes.Mesh -> Face -> vec.
Variable p : Params.

Let md := Hertz.md imported outer_faces normal p.

(** The values of the two terms, for any fields. *)
Lemma displacement_value
  (u1 u2 du1 du2 : vec -> vec) (lambda1 dlambda1 hT : vec -> R) (X : vec) :
  integrand md (contact_fields u1 u2 lambda1 du1 du2 dlambda1 hT) displacement_term X
  = Some (Scalar (lambda1 X * dot (du1 X) (0, 1)
                  - lambda1 X * dot (du2 (Pi X)) (0, 1))).
Proof.
  unfold integrand, value_of. rewrite read_displacement_term.
  cbn. rewrite image_Proj1. reflexivity.
Qed.

Lemma multiplier_value
  (u1 u2 du1 du2 : vec -> vec) (lambda1 dlambda1 hT : vec -> R) (X : vec) :
  integrand md (contact_fields u1 u2 lambda1 du1 du2 dlambda1 hT) multiplier_term X
  = Some (Scalar (- (gamma0 p * hT X)
                  * (lambda1 X + neg_part (augmented p hT lambda1 u1 u2 X))
                  * dlambda1 X)).
Proof.
  unfold integrand, value_of. rewrite read_multiplier_term.
  cbn. rewrite !image_Proj1. cbn.
  do 2 f_equal. f_equal. f_equal. f_equal. f_equal.
  unfold augmented. f_equal. f_equal.
  unfold gap, Pi, dot, vsub, vadd. cbn. ring.
Qed.

Variables u1 u2 du1 du2 : vec -> vec.
Variables lambda1 dlambda1 hT : vec -> R.

(** X3.  The multiplier term vanishes at X against every test function exactly
    when the multiplier is non-positive, the gap non-negative and one of the
    two is zero.  The weight gamma0 h_T is positive. *)
Theorem multiplier_equation_is_complementarity (X : vec) :
  0 < gamma0 p * hT X ->
  ((forall dl : vec -> R,
       integrand md (contact_fields u1 u2 lambda1 du1 du2 dl hT) multiplier_term X
       = Some (Scalar 0))
   <-> lambda1 X <= 0 /\ 0 <= gap u1 u2 X /\ lambda1 X * gap u1 u2 X = 0).
Proof.
  intros Hc.
  assert (Ha : 0 < 1 / (gamma0 p * hT X))
    by (apply Rdiv_lt_0_compat; lra).
  rewrite <- (neg_part_equation (lambda1 X) (gap u1 u2 X) _ Ha).
  fold (augmented p hT lambda1 u1 u2 X).
  split.
  - intros H. specialize (H (fun _ => 1)). rewrite multiplier_value in H.
    injection H as H. rewrite Rmult_1_r in H.
    apply Rmult_integral in H. destruct H as [H | H]; [lra | exact H].
  - intros H dl. rewrite multiplier_value. rewrite H. do 2 f_equal. ring.
Qed.

(** X4.  The weight of the gap in the augmented multiplier is E / h_T.  Where the
    augmented multiplier is non-positive the multiplier term is the gap
    times the test function; where it is non-negative the term is
    -(gamma0 h_T) lambda times the test function.  E and h_T are not zero. *)
Theorem multiplier_term_two_regimes (X : vec) :
  E p <> 0 -> hT X <> 0 ->
  1 / (gamma0 p * hT X) = E p / hT X
  /\ (augmented p hT lambda1 u1 u2 X <= 0 ->
      integrand md (contact_fields u1 u2 lambda1 du1 du2 dlambda1 hT) multiplier_term X
      = Some (Scalar (gap u1 u2 X * dlambda1 X)))
  /\ (0 <= augmented p hT lambda1 u1 u2 X ->
      integrand md (contact_fields u1 u2 lambda1 du1 du2 dlambda1 hT) multiplier_term X
      = Some (Scalar (- (gamma0 p * hT X) * lambda1 X * dlambda1 X))).
Proof.
  intros HE Hh.
  assert (Hg : gamma0 p <> 0).
  { unfold gamma0. intros H. apply (Rmult_eq_compat_r (E p)) in H.
    unfold Rdiv in H. rewrite Rmult_1_l, Rinv_l, Rmult_0_l in H by exact HE. lra. }
  split; [| split].
  - unfold gamma0. field. split; assumption.
  - intros Hle. rewrite multiplier_value. do 2 f_equal.
    rewrite (neg_part_neg _ Hle). unfold augmented. field.
    split; assumption.
  - intros Hge. rewrite multiplier_value. do 2 f_equal.
    rewrite (neg_part_pos _ Hge). ring.
Qed.

(** X5.  The displacement term does no work against a common translation of the
    two bodies, nor against horizontal test displacements; it does not
    depend on the displacements, on the size of the elements or on the
    material parameters. *)
Theorem displacement_term_balance (X : vec) :
  (forall d : vec,
      integrand md (contact_fields u1 u2 lambda1 (fun _ => d) (fun _ => d) dlambda1 hT)
                displacement_term X
      = Some (Scalar 0))
  /\ (forall f1 f2 : vec -> R,
         integrand md (contact_fields u1 u2 lambda1
                                      (fun Y => (f1 Y, 0)) (fun Y => (f2 Y, 0))
                                      dlambda1 hT)
                   displacement_term X
         = Some (Scalar 0))
  /\ (forall (q : Params) (v1 v2 : vec -> vec) (dl h : vec -> R),
         integrand (Hertz.md imported outer_faces normal q)
                   (contact_fields v1 v2 lambda1 du1 du2 dl h) displacement_term X
         = integrand md (contact_fields u1 u2 lambda1 du1 du2 dlambda1 hT)
                     displacement_term X).
Proof.
  split; [| split].
  - intros d. rewrite displacement_value. do 2 f_equal. ring.
  - intros f1 f2. rewrite displacement_value. do 2 f_equal.
    unfold dot. cbn. ring.
  - intros q v1 v2 dl h. rewrite displacement_value.
    unfold integrand, value_of. rewrite read_displacement_term.
    cbn. rewrite image_Proj1. reflexivity.
Qed.

(** X6.  Both terms are linear in the test functions: the term of a
    combination of test functions is the combination of the terms. *)
Theorem terms_linear_in_test_functions
  (a b : R) (d1 d2 e1 e2 : vec -> vec) (dl el : vec -> R) (X : vec) :
  let fs := contact_fields u1 u2 lambda1 d1 d2 dl hT in
  let gs := contact_fields u1 u2 lambda1 e1 e2 el hT in
  let hs := contact_fields u1 u2 lambda1
              (fun Y => vadd (scale a (d1 Y)) (scale b (e1 Y)))
              (fun Y => vadd (scale a (d2 Y)) (scale b (e2 Y)))
              (fun Y => a * dl Y + b * el Y) hT in
  (exists v w,
      integrand md fs displacement_term X = Some (Scalar v)
      /\ integrand md gs displacement_term X = Some (Scalar w)
      /\ integrand md hs displacement_term X = Some (Scalar (a * v + b * w)))
  /\ (exists v w,
         integrand md fs multiplier_term X = Some (Scalar v)
         /\ integrand md gs multiplier_term X = Some (Scalar w)
         /\ integrand md hs multiplier_term X = Some (Scalar (a * v + b * w))).
Proof.
  intros fs gs hs. subst fs gs hs. split.
  - eexists. eexists. split; [apply displacement_value |].
    split; [apply displacement_value |].
    rewrite displacement_value. do 2 f_equal.
    unfold dot, vadd, scale. cbn. ring.
  - eexists. eexists. split; [apply multiplier_value |].
    split; [apply multiplier_value |].
    rewrite multiplier_value. do 2 f_equal. ring.
Qed.

(** X7.  The transformation [Proj1] is a mirror: applied twice it gives the point
    back, it keeps the abscissa, it fixes exactly the points of the axis
    y = 0, it sends the side y >= 0 to the side y <= 0, and the point lies
    2 X(2) above its image. *)
Theorem Proj1_mirror (fs : fields) :
  exists T,
    transformation (workspace_of md fs) "Proj1" = Some T
    /\ forall X, exists Y,
         T X = Some Y
         /\ T Y = Some X
         /\ fst Y = fst X
         /\ (Y = X <-> snd X = 0)
         /\ (0 <= snd X -> snd Y <= 0)
         /\ dot (vsub X Y) (0, 1) = 2 * snd X.
Proof.
  eexists. split; [reflexivity |].
  intros X. exists (Pi X). split; [apply image_Proj1 |].
  split.
  - rewrite image_Proj1. unfold Pi. cbn. destruct X as [x y]. cbn.
    rewrite Ropp_involutive. reflexivity.
  - destruct X as [x y]. unfold Pi, dot, vsub. cbn.
    split; [reflexivity |]. split; [| split; [| ring]].
    + split.
      * intros H. injection H as H. lra.
      * intros H. subst y. f_equal. ring.
    + intros H. lra.
Qed.

(** X8.  With no displacement and no contact pressure, the multiplier term
    vanishes at X against every test function exactly when X is on or above
    the axis.  The weight gamma0 h_T is positive. *)
Theorem rest_state_satisfies_contact (X : vec) :
  0 < gamma0 p * hT X ->
  ((forall dl : vec -> R,
       integrand md
         (contact_fields (fun _ => (0, 0)) (fun _ => (0, 0)) (fun _ => 0) du1 du2 dl hT)
         multiplier_term X
       = Some (Scalar 0))
   <-> 0 <= snd X).
Proof.
  intros Hc.
  assert (Ha : 0 < 1 / (gamma0 p * hT X))
    by (apply Rdiv_lt_0_compat; lra).
  assert (Hgap : gap (fun _ => (0, 0)) (fun _ => (0, 0)) X = 2 * snd X).
  { unfold gap, Pi, dot, vsub, vadd. cbn. ring. }
  pose proof (neg_part_equation 0 (2 * snd X) _ Ha) as Heq.
  split.
  - intros H. specialize (H (fun _ => 1)). rewrite multiplier_value in H.
    injection H as H. rewrite Rmult_1_r in H. unfold augmented in H.
    rewrite Hgap in H.
    apply Rmult_integral in H. destruct H as [H | H]; [lra |].
    apply Heq in H. lra.
  - intros Hy dl. rewrite multiplier_value. unfold augmented. rewrite Hgap.
    assert (H : 0 + neg_part (0 + 1 / (gamma0 p * hT X) * (2 * snd X)) = 0).
    { apply Heq. split; [lra |]. split; [lra | ring]. }
    rewrite H. do 2 f_equal. ring.
Qed.

End WithScript.

Lemma script_weight_positive :
  0 < gamma0 script_params * Samples.unit_size (0, 0).
Proof. unfold gamma0, script_params, Samples.unit_size. simpl. lra. Defined.

(** At the origin of the triangle sample, with no displacement, the gap is
    closed and a pressure of -3 satisfies the multiplier equation. *)
Lemma multiplier_equation_is_complementarity_witness :
  0 < gamma0 script_params * Samples.unit_size (0, 0)
  /\ forall dl : vec -> R,
       integrand (Hertz.md Samples.triangle Samples.triangle_faces
                           Samples.triangle_normal script_params)
                 (contact_fields Samples.still Samples.still Samples.pressure
                                 Samples.still Samples.still dl Samples.unit_size)
                 multiplier_term (0, 0)
       = Some (Scalar 0).
Proof.
  split; [exact script_weight_positive |].
  apply (proj2 (multiplier_equation_is_complementarity
                  Samples.triangle Samples.triangle_faces Samples.triangle_normal
                  script_params Samples.still Samples.still Samples.still Samples.still
                  Samples.pressure Samples.unit_size (0, 0) script_weight_positive)).
  unfold gap, Pi, dot, vsub, vadd, Samples.still, Samples.pressure. cbn.
  split; [lra |]. split; [lra | ring].
Defined.

(** Same place, a point one unit above the axis and no pressure: the
    augmented multiplier is positive and the term is the second regime. *)
Lemma multiplier_term_two_regimes_witness :
  E script_params <> 0
  /\ Samples.unit_size (0, 1) <> 0
  /\ 1 / (gamma0 script_params * Samples.unit_size (0, 1))
     = E script_params / Samples.unit_size (0, 1).
Proof.
  assert (HE : E script_params <> 0) by (unfold script_params; simpl; lra).
  assert (Hh : Samples.unit_size (0, 1) <> 0) by (unfold Samples.unit_size; lra).
  split; [exact HE |]. split; [exact Hh |].
  exact (proj1 (multiplier_term_two_regimes
                  Samples.triangle Samples.triangle_faces Samples.triangle_normal
                  script_params Samples.still Samples.still Samples.still Samples.still
                  Samples.pressure Samples.pressure Samples.unit_size (0, 1) HE Hh)).
Defined.

(** The undeformed sample at a point of the axis. *)
Lemma rest_state_satisfies_contact_witness :
  0 < gamma0 script_params * Samples.unit_size (0, 0)
  /\ forall dl : vec -> R,
       integrand (Hertz.md Samples.triangle Samples.triangle_faces
                           Samples.triangle_normal script_params)
                 (contact_fields (fun _ => (0, 0)) (fun _ => (0, 0)) (fun _ => 0)
                                 Samples.still Samples.still dl Samples.unit_size)
                 multiplier_term (0, 0)
       = Some (Scalar 0).
Proof.
  split; [exact script_weight_positive |].
  apply (proj2 (rest_state_satisfies_contact
                  Samples.triangle Samples.triangle_faces Samples.triangle_normal
                  script_params Samples.still Samples.still Samples.unit_size (0, 0)
                  script_weight_positive)).
  simpl. lra.
Defined.

End ContactLaws.

(** ** More on the splitting of the mesh *)

Module SplitMore.
Import Meshes Split SplitFacts Samples.

(** The translation moves the ordinate y of the file to y + 5: the axis of
    the cut is the line y = -5 of the file. *)
Lemma shifted_nonneg (y : Q) : (0 <= y + 5 <-> -5 <= y)%Q.
Proof.
  destruct y as [a b]. unfold Qle, Qplus. simpl. split; intros H; lia.
Qed.

Lemma shifted_nonpos (y : Q) : (y + 5 <= 0 <-> y <= -5)%Q.
Proof.
  destruct y as [a b]. unfold Qle, Qplus. simpl. split; intros H; lia.
Qed.

Lemma nth_error_mesh (imported : Mesh) (i : nat) (xy : Q * Q) :
  nth_error (pts (mesh imported)) i = Some xy
  <-> exists ab, nth_error (pts imported) i = Some ab
                 /\ xy = (fst ab + 0, snd ab + 5)%Q.
Proof.
  unfold mesh, translate. simpl. rewrite nth_error_map.
  destruct (nth_error (pts imported) i) as [ab |]; simpl.
  - split.
    + intros H. injection H as H. exists ab. split; [reflexivity | now symmetry].
    + intros [cd [H1 H2]]. injection H1 as H1. subst cd. now rewrite H2.
  - split; [discriminate |]. intros [cd [H _]]. discriminate.
Qed.

(** X9.  In the coordinates of the file, the points selected for the wheel
    are those with y >= -5 and the points selected for the foundation those
    with y <= -5: every point of the mesh is selected on at least one side,
    and on both sides exactly when it lies on the line y = -5. *)
Theorem point_selection (imported : Mesh) (i : nat) :
  (In i (pid1 imported)
   <-> exists ab, nth_error (pts imported) i = Some ab /\ (-5 <= snd ab)%Q)
  /\ (In i (pid2 imported)
      <-> exists ab, nth_error (pts imported) i = Some ab /\ (snd ab <= -5)%Q)
  /\ (In i (pid1 imported) \/ In i (pid2 imported) <-> (i < nbpts imported)%nat)
  /\ (In i (pid1 imported) /\ In i (pid2 imported)
      <-> exists ab, nth_error (pts imported) i = Some ab /\ (snd ab == -5)%Q).
Proof.
  assert (H1 : In i (pid1 imported)
               <-> exists ab, nth_error (pts imported) i = Some ab /\ (-5 <= snd ab)%Q).
  { rewrite In_pid1. split.
    - intros [xy [Hn Hy]]. apply nth_error_mesh in Hn. destruct Hn as [ab [Hn Hxy]].
      exists ab. split; [assumption |]. subst xy. simpl in Hy.
      now apply shifted_nonneg.
    - intros [ab [Hn Hy]]. exists (fst ab + 0, snd ab + 5)%Q. split.
      + apply nth_error_mesh. now exists ab.
      + simpl. now apply shifted_nonneg. }
  assert (H2 : In i (pid2 imported)
               <-> exists ab, nth_error (pts imported) i = Some ab /\ (snd ab <= -5)%Q).
  { rewrite In_pid2. split.
    - intros [xy [Hn Hy]]. apply nth_error_mesh in Hn. destruct Hn as [ab [Hn Hxy]].
      exists ab. split; [assumption |]. subst xy. simpl in Hy.
      now apply shifted_nonpos.
    - intros [ab [Hn Hy]]. exists (fst ab + 0, snd ab + 5)%Q. split.
      + apply nth_error_mesh. now exists ab.
      + simpl. now apply shifted_nonpos. }
  split; [exact H1 |]. split; [exact H2 |]. split.
  - rewrite H1, H2. unfold nbpts. split.
    + intros [[ab [Hn _]] | [ab [Hn _]]];
        apply nth_error_Some; rewrite Hn; discriminate.
    + intros Hlt. apply nth_error_Some in Hlt.
      destruct (nth_error (pts imported) i) as [ab |] eqn:Hn; [| contradiction].
      destruct (Qlt_le_dec (snd ab) (-5)) as [Hlo | Hhi].
      * right. exists ab. split; [reflexivity | now apply Qlt_le_weak].
      * left. exists ab. split; [reflexivity | assumption].
  - rewrite H1, H2. split.
    + intros [[ab [Hn Hge]] [cd [Hn' Hle]]].
      rewrite Hn in Hn'. injection Hn' as Hn'. subst cd.
      exists ab. split; [assumption | now apply Qle_antisym].
    + intros [ab [Hn Heq]]. split; exists ab; (split; [assumption |]);
        rewrite Heq; apply Qle_refl.
Qed.

(** A convex with a vertex that is not selected has a vertex outside the
    selection. *)
Lemma not_all_selected (l pids : list nat) :
  ~ (forall q, In q l -> In q pids) -> exists q, In q l /\ ~ In q pids.
Proof.
  induction l as [| a l IH]; intros H.
  - exfalso. apply H. intros q [].
  - destruct (in_dec Nat.eq_dec a pids) as [Ha | Ha].
    + destruct IH as [q [Hq Hn]].
      * intros Hall. apply H. intros q [Hq | Hq]; [now subst q | now apply Hall].
      * exists q. split; [now right | assumption].
    + exists a. split; [now left | assumption].
Qed.

Section WithMesh.

Variable imported : Mesh.
Hypothesis ids : NoDup (map fst (cvs imported)).

Let m := mesh imported.

Lemma In_mesh1_iff (cv : nat * list nat) :
  In cv (cvs (mesh1 imported))
  <-> In cv (cvs m) /\ ~ (forall q, In q (snd cv) -> In q (pid2 imported)).
Proof.
  unfold mesh1. rewrite In_del_convex. fold m. unfold cvid2. fold m.
  split; intros [Hin H]; (split; [assumption |]);
    pose proof (selected_iff m (pid2 imported) cv ids Hin) as Hsel; tauto.
Qed.

Lemma In_mesh2_iff (cv : nat * list nat) :
  In cv (cvs (mesh2 imported))
  <-> In cv (cvs m) /\ ~ (forall q, In q (snd cv) -> In q (pid1 imported)).
Proof.
  unfold mesh2. rewrite In_del_convex. fold m. unfold cvid1. fold m.
  split; intros [Hin H]; (split; [assumption |]);
    pose proof (selected_iff m (pid1 imported) cv ids Hin) as Hsel; tauto.
Qed.

Lemma out_of_mesh1 (cv : nat * list nat) :
  In cv (cvs m) -> ~ In cv (cvs (mesh1 imported)) ->
  forall q, In q (snd cv) -> In q (pid2 imported).
Proof.
  intros Hin Hout q Hq.
  destruct (in_dec Nat.eq_dec q (pid2 imported)) as [H | H]; [exact H |].
  exfalso. apply Hout. apply In_mesh1_iff. split; [assumption |].
  intros Hall. apply H. now apply Hall.
Qed.

Lemma out_of_mesh2 (cv : nat * list nat) :
  In cv (cvs m) -> ~ In cv (cvs (mesh2 imported)) ->
  forall q, In q (snd cv) -> In q (pid1 imported).
Proof.
  intros Hin Hout q Hq.
  destruct (in_dec Nat.eq_dec q (pid1 imported)) as [H | H]; [exact H |].
  exfalso. apply Hout. apply In_mesh2_iff. split; [assumption |].
  intros Hall. apply H. now apply Hall.
Qed.

End WithMesh.

(** X10.  A convex of the mesh is in neither half exactly when all its
    vertices lie on the axis y = 0: the cut loses these convexes and no
    other.  Convex ids are distinct. *)
Theorem lost_convexes (imported : Mesh) (cv : nat * list nat) :
  NoDup (map fst (cvs imported)) ->
  In cv (cvs (mesh imported)) ->
  (~ In cv (cvs (mesh1 imported)) /\ ~ In cv (cvs (mesh2 imported))
   <-> all_vertices (fun xy => snd xy == 0)%Q (mesh imported) cv).
Proof.
  intros ids Hin. split.
  - intros [H1 H2] q Hq.
    pose proof (out_of_mesh1 imported ids cv Hin H1 q Hq) as Hlo.
    pose proof (out_of_mesh2 imported ids cv Hin H2 q Hq) as Hhi.
    apply In_pid2 in Hlo. apply In_pid1 in Hhi.
    destruct Hlo as [xy [Hn Hle]]. destruct Hhi as [xy' [Hn' Hge]].
    rewrite Hn in Hn'. injection Hn' as Hn'. subst xy'.
    exists xy. split; [assumption | now apply Qle_antisym].
  - intros Hall. split; intros Hc.
    + apply (In_mesh1_iff imported ids) in Hc. destruct Hc as [_ Hc]. apply Hc.
      intros q Hq. apply In_pid2. destruct (Hall q Hq) as [xy [Hn Hz]].
      exists xy. split; [assumption |]. rewrite Hz. apply Qle_refl.
    + apply (In_mesh2_iff imported ids) in Hc. destruct Hc as [_ Hc]. apply Hc.
      intros q Hq. apply In_pid1. destruct (Hall q Hq) as [xy [Hn Hz]].
      exists xy. split; [assumption |]. rewrite Hz. apply Qle_refl.
Qed.

Lemma lost_convexes_witness :
  NoDup (map fst (cvs sample))
  /\ In (3, [4; 5])%nat (cvs (mesh sample))
  /\ all_vertices (fun xy => snd xy == 0)%Q (mesh sample) (3, [4; 5])%nat.
Proof.
  assert (Hin : In (3, [4; 5])%nat (cvs (mesh sample))) by (vm_compute; tauto).
  split; [exact SplitSpec.sample_ids |]. split; [exact Hin |].
  apply (proj1 (lost_convexes sample (3, [4; 5])%nat SplitSpec.sample_ids Hin)).
  split; vm_compute; intuition discriminate.
Defined.

(** X11.  When every vertex of a convex is a point of the mesh, the wheel
    keeps exactly the convexes with a vertex strictly above the axis and the
    foundation exactly those with a vertex strictly below it; the two halves
    share exactly the convexes with vertices strictly on both sides.  Convex
    ids are distinct. *)
Theorem kept_convexes (imported : Mesh) (cv : nat * list nat) :
  NoDup (map fst (cvs imported)) ->
  In cv (cvs (mesh imported)) ->
  (forall q, In q (snd cv) -> (q < nbpts imported)%nat) ->
  (In cv (cvs (mesh1 imported))
   <-> some_vertex (fun xy => 0 < snd xy)%Q (mesh imported) cv)
  /\ (In cv (cvs (mesh2 imported))
      <-> some_vertex (fun xy => snd xy < 0)%Q (mesh imported) cv)
  /\ (In cv (cvs (mesh1 imported)) /\ In cv (cvs (mesh2 imported))
      <-> some_vertex (fun xy => 0 < snd xy)%Q (mesh imported) cv
          /\ some_vertex (fun xy => snd xy < 0)%Q (mesh imported) cv).
Proof.
  intros ids Hin Hvalid.
  assert (Hpt : forall q, In q (snd cv) ->
                          exists xy, nth_error (pts (mesh imported)) q = Some xy).
  { intros q Hq. specialize (Hvalid q Hq).
    assert (Hlt : (q < List.length (pts (mesh imported)))%nat).
    { unfold mesh, translate. simpl. rewrite length_map. exact Hvalid. }
    apply nth_error_Some in Hlt.
    destruct (nth_error (pts (mesh imported)) q) as [xy |]; [| contradiction].
    now exists xy. }
  assert (H1 : In cv (cvs (mesh1 imported))
               <-> some_vertex (fun xy => 0 < snd xy)%Q (mesh imported) cv).
  { rewrite (In_mesh1_iff imported ids). split.
    - intros [_ Hno]. apply not_all_selected in Hno. destruct Hno as [q [Hq Hout]].
      destruct (Hpt q Hq) as [xy Hn]. exists q, xy. repeat split; try assumption.
      apply Qnot_le_lt. intros Hle. apply Hout. apply In_pid2. now exists xy.
    - intros [q [xy [Hq [Hn Hgt]]]]. split; [assumption |]. intros Hall.
      specialize (Hall q Hq). apply In_pid2 in Hall. destruct Hall as [xy' [Hn' Hle]].
      rewrite Hn in Hn'. injection Hn' as Hn'. subst xy'.
      exact (Qlt_not_le _ _ Hgt Hle). }
  assert (H2 : In cv (cvs (mesh2 imported))
               <-> some_vertex (fun xy => snd xy < 0)%Q (mesh imported) cv).
  { rewrite (In_mesh2_iff imported ids). split.
    - intros [_ Hno]. apply not_all_selected in Hno. destruct Hno as [q [Hq Hout]].
      destruct (Hpt q Hq) as [xy Hn]. exists q, xy. repeat split; try assumption.
      apply Qnot_le_lt. intros Hle. apply Hout. apply In_pid1. now exists xy.
    - intros [q [xy [Hq [Hn Hlt]]]]. split; [assumption |]. intros Hall.
      specialize (Hall q Hq). apply In_pid1 in Hall. destruct Hall as [xy' [Hn' Hge]].
      rewrite Hn in Hn'. injection Hn' as Hn'. subst xy'.
      exact (Qlt_not_le _ _ Hlt Hge). }
  split; [exact H1 |]. split; [exact H2 |]. rewrite H1, H2. reflexivity.
Qed.

Lemma kept_convexes_witness :
  NoDup (map fst (cvs sample))
  /\ In (0, [0; 1; 4])%nat (cvs (mesh sample))
  /\ (forall q, In q [0; 1; 4]%nat -> (q < nbpts sample)%nat)
  /\ ~ In (0, [0; 1; 4])%nat (cvs (mesh1 sample))
  /\ In (0, [0; 1; 4])%nat (cvs (mesh2 sample)).
Proof.
  assert (Hin : In (0, [0; 1; 4])%nat (cvs (mesh sample))) by (vm_compute; tauto).
  assert (Hvalid : forall q, In q (snd (0, [0; 1; 4])%nat) -> (q < nbpts sample)%nat).
  { intros q Hq. simpl in Hq. unfold nbpts. simpl.
    destruct Hq as [Hq | [Hq | [Hq | []]]]; subst q; lia. }
  split; [exact SplitSpec.sample_ids |]. split; [exact Hin |]. split; [exact Hvalid |].
  destruct (kept_convexes sample (0, [0; 1; 4])%nat SplitSpec.sample_ids Hin Hvalid)
    as [H1 [H2 _]].
  split.
  - intros Hc. apply H1 in Hc. destruct Hc as [q [xy [Hq [Hn Hgt]]]].
    simpl in Hq. destruct Hq as [Hq | [Hq | [Hq | []]]]; subst q;
      vm_compute in Hn; injection Hn as Hn; subst xy; vm_compute in Hgt; discriminate.
  - apply H2. exists 0%nat, (0 + 0, -6 + 5)%Q. vm_compute. tauto.
Defined.

End SplitMore.

(** ** More on what the script puts in the model *)

Module ModelMore.
Import Meshes Plane Gwfl Fem Models Hertz Contact Names Dirichlet.

Local Open Scope R_scope.
Local Open Scope string_scope.

Ltac distinct_names :=
  repeat (constructor; [simpl; intuition discriminate |]); constructor.

(** The two readings of a condition, in components. *)
Lemma prescribes_iff
  (md : Model) (dataname Hname : string) (r1 r2 a b c d x y : R) :
  vector_data md dataname = Some (r1, r2) ->
  matrix_data md Hname = Some [[a; b]; [c; d]] ->
  (prescribes md dataname Hname (x, y)
   <-> a * x + b * y = r1 /\ c * x + d * y = r2).
Proof.
  intros Hr HH. unfold prescribes. split.
  - intros [r [H [Hr' [HH' Hv]]]].
    rewrite Hr in Hr'. rewrite HH in HH'.
    injection Hr' as Hr'. injection HH' as HH'. subst r H.
    simpl in Hv. injection Hv as H1 H2. tauto.
  - intros [H1 H2]. exists (r1, r2), [[a; b]; [c; d]].
    split; [assumption |]. split; [assumption |].
    simpl. rewrite H1, H2. reflexivity.
Qed.

Lemma prescribes_difference_iff
  (md : Model) (dataname Hname : string) (r1 r2 a b c d x y : R) :
  vector_data md dataname = Some (r1, r2) ->
  matrix_data md Hname = Some [[a; b]; [c; d]] ->
  (prescribes_difference md dataname Hname (x, y)
   <-> a * (x - r1) + b * (y - r2) = 0 /\ c * (x - r1) + d * (y - r2) = 0).
Proof.
  intros Hr HH. unfold prescribes_difference. split.
  - intros [r [H [Hr' [HH' Hv]]]].
    rewrite Hr in Hr'. rewrite HH in HH'.
    injection Hr' as Hr'. injection HH' as HH'. subst r H.
    simpl in Hv. injection Hv as H1 H2. tauto.
  - intros [H1 H2]. exists (r1, r2), [[a; b]; [c; d]].
    split; [assumption |]. split; [assumption |].
    simpl. rewrite H1, H2. reflexivity.
Qed.

Section WithScript.

Variable imported : Meshes.Mesh.
Variable outer_faces : Meshes.Mesh -> list Face.
Variable normal : Meshes.Mesh -> Face -> vec.
Variable p : Params.

Let md := Hertz.md imported outer_faces normal p.
Let wheel := Hertz.wheel imported outer_faces normal.
Let foundation := Hertz.foundation imported outer_faces normal.
Let mim1 := Hertz.mim1 imported outer_faces normal p.
Let mim2 := Hertz.mim2 imported outer_faces normal p.
Let mfu1 := Hertz.mfu1 imported outer_faces normal p.
Let mfu2 := Hertz.mfu2 imported outer_faces normal p.
Let vm1 := Hertz.vm1 imported outer_faces normal p.
Let vm2 := Hertz.vm2 imported outer_faces normal p.

Lemma declared_md :
  declared md
  = ["u1"; "u2"; "lambda1"; "cmu"; "clambdastar"; "r0"; "r1"; "r2"; "r3";
     "H0"; "H1"; "H2"; "H3"; "gamma0"].
Proof. reflexivity. Qed.

(** X12.  Every brick of the model has an expression that reads and is given
    names of variables, data and transformations that the model declares;
    so are the Von Mises computations.  No name is declared twice. *)
Theorem model_names_declared :
  Forall (fun b => readable b = true
                   /\ Forall (fun n => In n (declared md)) (brick_names b)
                   /\ Forall (fun t => In t (map fst (transformations md)))
                             (brick_transformations b))
         (bricks md)
  /\ NoDup (declared md ++ map fst (transformations md))
  /\ Forall (fun vm => In (vm_varname vm) (map fst (variables md))
                       /\ In (vm_dataname_lambda vm) (map fst (data md))
                       /\ In (vm_dataname_mu vm) (map fst (data md)))
            [vm1; vm2].
Proof.
  split; [| split].
  - change (bricks md) with
      [IsotropicLinearizedElasticity mim1 "u1" "clambdastar" "cmu";
       IsotropicLinearizedElasticity mim2 "u2" "clambdastar" "cmu";
       GeneralizedDirichletWithMultipliers mim1 "u1" mfu1 TOP_BOUND "r0" "H0";
       GeneralizedDirichletWithMultipliers mim1 "u1" mfu1 LEFT_BOUND "r1" "H1";
       GeneralizedDirichletWithMultipliers mim2 "u2" mfu2 LEFT_BOUND "r2" "H2";
       GeneralizedDirichletWithMultipliers mim2 "u2" mfu2 BOTTOM_BOUND "r3" "H3";
       NonlinearTerm mim1 displacement_term CONTACT_BOUND;
       NonlinearTerm mim1 multiplier_term CONTACT_BOUND].
    rewrite declared_md.
    repeat (apply Forall_cons || apply Forall_nil);
      unfold readable, brick_names, brick_transformations;
      rewrite ?read_displacement_term, ?read_multiplier_term;
      (split; [reflexivity |]); split;
      repeat (apply Forall_cons || apply Forall_nil); simpl; tauto.
  - rewrite declared_md. simpl. distinct_names.
  - repeat (apply Forall_cons || apply Forall_nil); simpl; tauto.
Qed.

(** X13.  In the two contact terms, every variable read at the point itself lives
    on the mesh of the integration method, and every variable read through
    a transformation lives on the mesh this transformation leads to, from
    the mesh of the integration method. *)
Theorem term_variables_on_their_mesh (expression : string) :
  In expression [displacement_term; multiplier_term] ->
  exists e,
    read expression = Some e
    /\ (forall n decl,
           In n (direct e) -> lookup n (variables md) = Some decl ->
           mesh_of decl = mim_mesh mim1)
    /\ (forall t n decl,
           In (t, n) (through e) -> lookup n (variables md) = Some decl ->
           exists tr, lookup t (transformations md) = Some tr
                      /\ tr_source tr = mim_mesh mim1
                      /\ tr_target tr = mesh_of decl).
Proof.
  intros [H | [H | []]]; subst expression.
  - eexists. split; [apply read_displacement_term |]. split.
    + intros n decl Hn Hl. simpl in Hn.
      destruct Hn as [Hn | [Hn | [Hn | []]]]; subst n;
        cbn in Hl; injection Hl as Hl; subst decl; reflexivity.
    + intros t n decl Hn Hl. simpl in Hn.
      destruct Hn as [Hn | []]. injection Hn as Ht Hn. subst t n.
      cbn in Hl. injection Hl as Hl. subst decl.
      eexists. split; [reflexivity |]. split; reflexivity.
  - eexists. split; [apply read_multiplier_term |]. split.
    + intros n decl Hn Hl. simpl in Hn.
      repeat (destruct Hn as [Hn | Hn];
              [subst n; cbn in Hl; try discriminate;
               injection Hl as Hl; subst decl; reflexivity |]).
      contradiction.
    + intros t n decl Hn Hl. simpl in Hn.
      destruct Hn as [Hn | []]. injection Hn as Ht Hn. subst t n.
      cbn in Hl. injection Hl as Hl. subst decl.
      eexists. split; [reflexivity |]. split; reflexivity.
Qed.

(** X14.  The four Dirichlet conditions of the model, with their data: each
    constrains one component of the displacement and leaves the other free,
    whichever way the condition is read.  On the top of the wheel the
    vertical displacement is -0.1, on the left of both bodies the horizontal
    displacement is 0 and on the bottom of the foundation the vertical
    displacement is 0. *)
Theorem dirichlet_conditions (u : vec) :
  dirichlet_bricks md
  = [GeneralizedDirichletWithMultipliers mim1 "u1" mfu1 TOP_BOUND "r0" "H0";
     GeneralizedDirichletWithMultipliers mim1 "u1" mfu1 LEFT_BOUND "r1" "H1";
     GeneralizedDirichletWithMultipliers mim2 "u2" mfu2 LEFT_BOUND "r2" "H2";
     GeneralizedDirichletWithMultipliers mim2 "u2" mfu2 BOTTOM_BOUND "r3" "H3"]
  /\ (prescribes md "r0" "H0" u <-> snd u = - (1 / 10))
  /\ (prescribes md "r1" "H1" u <-> fst u = 0)
  /\ (prescribes md "r2" "H2" u <-> fst u = 0)
  /\ (prescribes md "r3" "H3" u <-> snd u = 0)
  /\ (prescribes_difference md "r0" "H0" u <-> snd u = - (1 / 10))
  /\ (prescribes_difference md "r1" "H1" u <-> fst u = 0)
  /\ (prescribes_difference md "r2" "H2" u <-> fst u = 0)
  /\ (prescribes_difference md "r3" "H3" u <-> snd u = 0).
Proof.
  destruct u as [x y].
  split; [reflexivity |].
  split; [| split; [| split; [| split; [| split; [| split; [| split]]]]]].
  - rewrite (prescribes_iff md "r0" "H0" 0 (- (1 / 10)) 0 0 0 1 x y eq_refl eq_refl).
    simpl. split; intros H; lra.
  - rewrite (prescribes_iff md "r1" "H1" 0 0 1 0 0 0 x y eq_refl eq_refl).
    simpl. split; intros H; lra.
  - rewrite (prescribes_iff md "r2" "H2" 0 0 1 0 0 0 x y eq_refl eq_refl).
    simpl. split; intros H; lra.
  - rewrite (prescribes_iff md "r3" "H3" 0 0 0 0 0 1 x y eq_refl eq_refl).
    simpl. split; intros H; lra.
  - rewrite (prescribes_difference_iff
               md "r0" "H0" 0 (- (1 / 10)) 0 0 0 1 x y eq_refl eq_refl).
    simpl. split; intros H; lra.
  - rewrite (prescribes_difference_iff md "r1" "H1" 0 0 1 0 0 0 x y eq_refl eq_refl).
    simpl. split; intros H; lra.
  - rewrite (prescribes_difference_iff md "r2" "H2" 0 0 1 0 0 0 x y eq_refl eq_refl).
    simpl. split; intros H; lra.
  - rewrite (prescribes_difference_iff md "r3" "H3" 0 0 0 0 0 1 x y eq_refl eq_refl).
    simpl. split; intros H; lra.
Qed.

(** X15.  The integration methods of both meshes have the order elements_degree
    squared; this order reaches twice the degree of the displacement
    elements exactly when elements_degree is at least 2 or at most 0. *)
Theorem integration_order :
  mim_degree mim1 = (elements_degree p * elements_degree p)%Z
  /\ mim_degree mim2 = (elements_degree p * elements_degree p)%Z
  /\ degree mfu1 = Some (elements_degree p)
  /\ degree mfu2 = Some (elements_degree p)
  /\ ((2 * elements_degree p <= mim_degree mim1)%Z
      <-> (elements_degree p <= 0 \/ 2 <= elements_degree p)%Z).
Proof.
  assert (H : mim_degree mim1 = (elements_degree p * elements_degree p)%Z).
  { subst mim1. unfold Hertz.mim1. simpl. apply Z.pow_2_r. }
  split; [exact H |]. split.
  - subst mim2. unfold Hertz.mim2. simpl. apply Z.pow_2_r.
  - split; [reflexivity |]. split; [reflexivity |].
    rewrite H. split; intros Hk; nia.
Qed.

End WithScript.

(** The statement for the displacement term of the triangle sample. *)
Lemma term_variables_on_their_mesh_witness :
  In displacement_term [displacement_term; multiplier_term]
  /\ exists e,
       read displacement_term = Some e
       /\ (forall n decl,
              In n (direct e) ->
              lookup n (variables (Hertz.md Samples.triangle Samples.triangle_faces
                                            Samples.triangle_normal script_params))
              = Some decl ->
              mesh_of decl
              = mim_mesh (Hertz.mim1 Samples.triangle Samples.triangle_faces
                                     Samples.triangle_normal script_params))
       /\ (forall t n decl,
              In (t, n) (through e) ->
              lookup n (variables (Hertz.md Samples.triangle Samples.triangle_faces
                                            Samples.triangle_normal script_params))
              = Some decl ->
              exists tr,
                lookup t (transformations
                            (Hertz.md Samples.triangle Samples.triangle_faces
                                      Samples.triangle_normal script_params))
                = Some tr
                /\ tr_source tr
                   = mim_mesh (Hertz.mim1 Samples.triangle Samples.triangle_faces
                                          Samples.triangle_normal script_params)
                /\ tr_target tr = mesh_of decl).
Proof.
  assert (Hin : In displacement_term [displacement_term; multiplier_term])
    by (left; reflexivity).
  split; [exact Hin |].
  exact (term_variables_on_their_mesh
           Samples.triangle Samples.triangle_faces Samples.triangle_normal
           script_params displacement_term Hin).
Defined.

End ModelMore.
